(** * FluidML: task dependencies, task construction and result packing

    A shallow embedding of
      - [fluidml/common/dependency.py]  (class [DependencyMixin]),
      - [fluidml/common/task.py]        (class [Task]),
      - [fluidml/storage/utils.py]      ([pack_results],
        [pack_predecessor_results], [simplify_results]),
    followed by the properties the specification states about them. *)

From Stdlib Require Import ZArith List Lia.
From stdpp Require Import base option list strings.

Local Open Scope string_scope.
Local Open Scope list_scope.
Local Open Scope nat_scope.

Local Set Warnings "-register-all".

(** ** Python values *)

(** The fragment of Python's value universe the packing functions build and
    pass around.  [PObj] stands for any other object (tensors, tokenizers,
    ...), identified by its address. *)
Inductive pyval : Type :=
| PNone
| PBool (b : bool)
| PInt (z : Z)
| PStr (s : string)
| PObj (addr : nat)
| PList (l : list pyval)
| PDict (items : list (string * pyval)).

(** ** Insertion-ordered dictionaries *)

(** A Python [dict] keeps its items in insertion order; assigning to a key
    that is present replaces the value in place, assigning to a new key
    appends an item. *)
Module Dict.
Section Dict.
Context {K V : Type} `{EqDecision K}.

Definition keys (d : list (K * V)) : list K := d.*1.

(** A [dict] never holds a key twice. *)
Definition wf (d : list (K * V)) : Prop := NoDup (keys d).

Fixpoint get (k : K) (d : list (K * V)) : option V :=
  match d with
  | [] => None
  | (k', v) :: d' => if decide (k = k') then Some v else get k d'
  end.

(** [k in d.keys()] *)
Definition contains (k : K) (d : list (K * V)) : bool :=
  bool_decide (k ∈ keys d).

(** [d[k] = v] *)
Fixpoint set (k : K) (v : V) (d : list (K * V)) : list (K * V) :=
  match d with
  | [] => [(k, v)]
  | (k', v') :: d' =>
      if decide (k = k') then (k', v) :: d' else (k', v') :: set k v d'
  end.
End Dict.
End Dict.

Abbreviation dict K V := (list (K * V)) (only parsing).
Abbreviation pydict := (list (string * pyval)) (only parsing).

(** ** [fluidml/common/dependency.py] and [fluidml/common/task.py] *)

(** Objects are referred to by their identity. *)
Definition oid := nat.

(** The two attributes [DependencyMixin.__init__] creates. *)
Record DependencyMixin : Type := {
  _predecessors : list oid;
  _successors : list oid
}.

Definition DependencyMixin_init : DependencyMixin :=
  {| _predecessors := []; _successors := [] |}.

(** [Resource] is an empty dataclass; the results store is duck-typed.
    A task only holds references to them. *)
Record Task : Type := {
  Task_dep : DependencyMixin;
  kwargs : option pydict;
  _name : option string;
  _publishes : option (list string);
  _id : option Z;
  _unique_config : option pydict;
  _reduce : bool;
  _force : option string;
  _results_store : option oid;
  _resource : option oid
}.

(** [Task.__init__(self, kwargs=None)] *)
Definition Task_init (kwargs : option pydict) : Task :=
  {| Task_dep := DependencyMixin_init;
     kwargs := kwargs;
     _name := None;
     _publishes := None;
     _id := None;
     _unique_config := None;
     _reduce := false;
     _force := None;
     _results_store := None;
     _resource := None |}.

(** The read-only properties of [Task] and [DependencyMixin]. *)
Definition predecessors (t : Task) : list oid := _predecessors (Task_dep t).
Definition successors (t : Task) : list oid := _successors (Task_dep t).
Definition name (t : Task) : option string := _name t.
Definition id_ (t : Task) : option Z := _id t.
Definition unique_config (t : Task) : option pydict := _unique_config t.
Definition results_store (t : Task) : option oid := _results_store t.
Definition resource (t : Task) : option oid := _resource t.
Definition force (t : Task) : option string := _force t.
Definition publishes (t : Task) : option (list string) := _publishes t.
Definition reduce (t : Task) : bool := _reduce t.

(** *** The object graph built by [requires]

    Every [DependencyMixin] object owns two list objects, created by
    [__init__] and never rebound by [requires] or [required_by]; the heap
    maps an object to the current contents of its two lists. *)
Definition heap := oid → DependencyMixin.

(** All objects freshly constructed. *)
Definition fresh_heap : heap := λ _, DependencyMixin_init.

(** A reference to a list object: a list of the caller's own, or the list
    a [predecessors] / [successors] property returns, which is the object's
    internal list itself and not a copy. *)
Inductive listref : Type :=
| LFresh (l : list oid)
| LPreds (o : oid)
| LSuccs (o : oid).

(** The argument of [requires]: one spec, or a list of specs. *)
Inductive requires_arg : Type :=
| ArgSpec (p : oid)
| ArgList (r : listref).

Definition deref (h : heap) (r : listref) : list oid :=
  match r with
  | LFresh l => l
  | LPreds o => _predecessors (h o)
  | LSuccs o => _successors (h o)
  end.

(** [self._successors.append(successor)] *)
Definition required_by (h : heap) (self successor : oid) : heap :=
  λ o, if decide (o = self)
       then {| _predecessors := _predecessors (h o);
               _successors := _successors (h o) ++ [successor] |}
       else h o.

(** [self._predecessors.extend(predecessors)] *)
Definition extend_predecessors (h : heap) (self : oid) (l : list oid) : heap :=
  λ o, if decide (o = self)
       then {| _predecessors := _predecessors (h o) ++ l;
               _successors := _successors (h o) |}
       else h o.

(** [for predecessor in predecessors: predecessor.required_by(self)].
    A list iterator holds the list object and an index and reads the live
    list at every step, so appends made by the loop body to the list being
    traversed are seen.  [None]: the fuel ran out before the iterator was
    exhausted. *)
Fixpoint requires_loop (fuel : nat) (h : heap) (self : oid) (r : listref)
    (i : nat) : option heap :=
  match fuel with
  | 0 => None
  | S fuel' =>
      match deref h r !! i with
      | None => Some h
      | Some predecessor =>
          requires_loop fuel' (required_by h predecessor self) self r (S i)
      end
  end.

(** [DependencyMixin.requires(self, predecessors)] *)
Definition requires (fuel : nat) (h : heap) (self : oid)
    (predecessors : requires_arg) : option heap :=
  let r := match predecessors with
           | ArgSpec p => LFresh [p]
           | ArgList r => r
           end in
  let h1 := extend_predecessors h self (deref h r) in
  requires_loop fuel h1 self r 0.

(** A sequence of [requires] calls, each given as (receiver, argument). *)
Fixpoint requires_calls (fuel : nat) (h : heap)
    (calls : list (oid * requires_arg)) : option heap :=
  match calls with
  | [] => Some h
  | (self, arg) :: calls' =>
      match requires fuel h self arg with
      | None => None
      | Some h' => requires_calls fuel h' calls'
      end
  end.

(** *** Attribute lookup on a [Task] instance

    The names bound in the class bodies along the method resolution order
    of [Task] ([ABC] and [object] bind double-underscore names only), and
    the instance attributes set by [__init__]. *)
Definition DependencyMixin_namespace : list string :=
  ["__init__"; "requires"; "required_by"; "predecessors"; "successors"].

Definition Task_namespace : list string :=
  ["__init__"; "name"; "id_"; "unique_config"; "results_store"; "resource";
   "force"; "publishes"; "reduce"; "run"].

Definition Task_instance_attributes : list string :=
  ["_predecessors"; "_successors"; "kwargs"; "_name"; "_publishes"; "_id";
   "_unique_config"; "_reduce"; "_force"; "_results_store"; "_resource"].

Inductive attr_owner : Type :=
| OwnerInstance
| OwnerClass (cls : string).

(** [getattr(task, attr)]: where the attribute is found; [None] stands for
    [AttributeError]. *)
Definition Task_getattr (attr : string) : option attr_owner :=
  if bool_decide (attr ∈ Task_namespace) then Some (OwnerClass "Task")
  else if bool_decide (attr ∈ DependencyMixin_namespace)
       then Some (OwnerClass "DependencyMixin")
  else if bool_decide (attr ∈ Task_instance_attributes) then Some OwnerInstance
  else None.

(** ** [fluidml/storage/utils.py] *)

(** *** Calls into the results store, and exceptions

    The packing functions only read the store, through [get_results]; a
    computation threads the log of the calls made so far and either returns
    a value or raises. *)
Record store_call : Type := {
  call_task_name : option string;
  call_task_unique_config : option pydict;
  call_task_publishes : option (list string)
}.

Inductive exn : Type :=
| TaskResultKeyAlreadyExists (msg : string).

Inductive outcome (A : Type) : Type :=
| Returned (a : A)
| Raised (e : exn).
Arguments Returned {A} a.
Arguments Raised {A} e.

Definition M (A : Type) : Type := list store_call → outcome A * list store_call.

#[export] Instance M_ret : MRet M := λ A a log, (Returned a, log).

#[export] Instance M_bind : MBind M := λ A B f m log,
  match m log with
  | (Returned a, log') => f a log'
  | (Raised e, log') => (Raised e, log')
  end.

Definition raise {A : Type} (e : exn) : M A := λ log, (Raised e, log).

(** [str(name)] inside an f-string. *)
Definition format_name (n : option string) : string :=
  match n with
  | None => "None"
  | Some s => s
  end.

(** The [{'result': result, 'config': config}] record. *)
Definition py_of_config (c : option pydict) : pyval :=
  match c with
  | None => PNone
  | Some d => PDict d
  end.

Definition result_record (result : pydict) (config : option pydict) : pyval :=
  PDict [("result", PDict result); ("config", py_of_config config)].

Section Packing.

(** The store's [get_results(task_name, task_unique_config, task_publishes)];
    it answers with a mapping from artifact name to object. *)
Variable get_results :
  option string → option pydict → option (list string) → pydict.

Definition call_of (task : Task) : store_call :=
  {| call_task_name := name task;
     call_task_unique_config := unique_config task;
     call_task_publishes := publishes task |}.

Definition results_of (task : Task) : pydict :=
  get_results (name task) (unique_config task) (publishes task).

Definition store_get_results (task : Task) : M pydict :=
  λ log, (Returned (results_of task), log ++ [call_of task]).

(** [results[task_name].append(x)] on a [defaultdict(list)]. *)
Definition defaultdict_append {K : Type} `{EqDecision K} (k : K) (x : pyval)
    (results : dict K (list pyval)) : dict K (list pyval) :=
  Dict.set k (default [] (Dict.get k results) ++ [x]) results.

(** [simplify_results]: the loop over [results.items()], which reads item
    [i] of the live dictionary at step [i]; assigning to a key that is
    present does not change the size or the order of the dictionary. *)
Fixpoint simplify_loop {K : Type} `{EqDecision K} (n i : nat)
    (results : dict K pyval) : dict K pyval :=
  match n with
  | 0 => results
  | S n' =>
      match results !! i with
      | None => results
      | Some (task_name, task_results) =>
          simplify_loop n' (S i)
            (match task_results with
             | PList [r0] => Dict.set task_name r0 results
             | _ => results
             end)
      end
  end.

(** The values [pack_results] hands over are the lists collected in the
    [defaultdict(list)]. *)
Definition simplify_results {K : Type} `{EqDecision K}
    (results : dict K (list pyval)) : dict K pyval :=
  let results := prod_map id PList <$> results in
  simplify_loop (length results) 0 results.

Fixpoint pack_results_load (all_tasks : list Task)
    (results : dict (option string) (list pyval))
    : M (dict (option string) (list pyval)) :=
  match all_tasks with
  | [] => mret results
  | task :: all_tasks' =>
      result ← store_get_results task;
      pack_results_load all_tasks'
        (defaultdict_append (name task)
           (result_record result (unique_config task)) results)
  end.

Fixpoint pack_results_configs (all_tasks : list Task)
    (results : dict (option string) (list pyval))
    : dict (option string) (list pyval) :=
  match all_tasks with
  | [] => results
  | task :: all_tasks' =>
      pack_results_configs all_tasks'
        (defaultdict_append (name task) (py_of_config (unique_config task))
           results)
  end.

Definition pack_results (all_tasks : list Task) (return_results : bool)
    : M (dict (option string) pyval) :=
  if return_results then
    results ← pack_results_load all_tasks [];
    mret (simplify_results results)
  else
    mret (simplify_results (pack_results_configs all_tasks [])).

(** The reduce branch of [pack_predecessor_results]. *)
Fixpoint pack_reduced (predecessor_tasks : list Task)
    (all_results : list pyval) : M (list pyval) :=
  match predecessor_tasks with
  | [] => mret all_results
  | predecessor :: predecessor_tasks' =>
      result ← store_get_results predecessor;
      pack_reduced predecessor_tasks'
        (all_results ++ [result_record result (unique_config predecessor)])
  end.

(** The inner loop of the other branch, over [result.items()]. *)
Fixpoint merge_result (predecessor : Task) (items : pydict)
    (results : pydict) : M pydict :=
  match items with
  | [] => mret results
  | (key, value) :: items' =>
      if Dict.contains key results then
        raise (TaskResultKeyAlreadyExists
                 (format_name (name predecessor) +:+ " saves a key '" +:+ key
                  +:+ "' that already exists in another tasks's result"))
      else merge_result predecessor items' (Dict.set key value results)
  end.

Fixpoint pack_merged (predecessor_tasks : list Task) (results : pydict)
    : M pydict :=
  match predecessor_tasks with
  | [] => mret results
  | predecessor :: predecessor_tasks' =>
      result ← store_get_results predecessor;
      results' ← merge_result predecessor result results;
      pack_merged predecessor_tasks' results'
  end.

Definition pack_predecessor_results (predecessor_tasks : list Task)
    (reduce_task : bool) : M pydict :=
  if reduce_task then
    all_results ← pack_reduced predecessor_tasks [];
    mret [("reduced_results", PList all_results)]
  else pack_merged predecessor_tasks [].

(** Running a packing function from an empty call log. *)
Definition run {A : Type} (m : M A) : outcome A * list store_call := m [].

End Packing.

(** ** [fluidml/common/dependency.py]: the property setters *)

(** [self.predecessors = predecessors] and [self.successors = successors]
    bind the attribute to the list handed over.  Here that list is one of
    the caller's own that the caller lets go of: the heap holds what the
    attribute reads after the assignment. *)
Definition set_predecessors (h : heap) (self : oid) (predecessors : list oid)
    : heap :=
  λ o, if decide (o = self)
       then {| _predecessors := predecessors;
               _successors := _successors (h o) |}
       else h o.

Definition set_successors (h : heap) (self : oid) (successors : list oid)
    : heap :=
  λ o, if decide (o = self)
       then {| _predecessors := _predecessors (h o);
               _successors := successors |}
       else h o.

(** ** [examples/.../transformer_seq2seq_translation.py]: model selection *)

(** A value, or the [KeyError] a subscript raises. *)
Inductive or_KeyError (A : Type) : Type :=
| Value (a : A)
| KeyError.
Arguments Value {A} a.
Arguments KeyError {A}.

Section ModelSelection.
(** The validation losses are floats: [V] is their type, [le] is Python's
    [<=] on them and [inf] is [float("inf")]. *)
Variables (V : Type) (le : V → V → bool) (inf : V).

(** A [Sweep] carries the stored [value] of one run, a dictionary, and the
    [config] of that run. *)
Record Sweep : Type := {
  sweep_value : dict string V;
  sweep_config : pydict
}.

(** The loop of [ModelSelection._select_best_model_from_sweeps]. *)
Fixpoint select_best_loop (best_model_metric : list Sweep)
    (config : option pydict) (best_valid_loss : V)
    : or_KeyError (option pydict) :=
  match best_model_metric with
  | [] => Value config
  | sweep :: best_model_metric' =>
      match Dict.get "valid_loss" (sweep_value sweep) with
      | None => KeyError
      | Some valid_loss =>
          if le valid_loss best_valid_loss
          then select_best_loop best_model_metric'
                 (Some (sweep_config sweep)) valid_loss
          else select_best_loop best_model_metric' config best_valid_loss
      end
  end.

Definition _select_best_model_from_sweeps (best_model_metric : list Sweep)
    : or_KeyError (option pydict) :=
  select_best_loop best_model_metric None inf.

End ModelSelection.
Arguments sweep_value {V} s.
Arguments sweep_config {V} s.

(** ** Vocabulary of the properties *)

(** *** Result packing *)

(** Two different positions of [ks] hold a common element. *)
Definition clash {A : Type} (ks : list (list A)) : Prop :=
  ∃ i j ki kj x, i < j ∧ ks !! i = Some ki ∧ ks !! j = Some kj ∧ x ∈ ki ∧ x ∈ kj.

(** The items of one store result can be added to [acc] without a clash. *)
Definition mergeable (items acc : pydict) : Prop :=
  NoDup (Dict.keys items) ∧ ∀ k, k ∈ Dict.keys items → k ∉ Dict.keys acc.

(** Two predecessors at different positions whose store results share an
    artifact key. *)
Definition duplicate_key
    (get_results : option string → option pydict → option (list string) → pydict)
    (tasks : list Task) : Prop :=
  ∃ i j pi pj key,
    i < j ∧ tasks !! i = Some pi ∧ tasks !! j = Some pj
    ∧ key ∈ Dict.keys (results_of get_results pi)
    ∧ key ∈ Dict.keys (results_of get_results pj).

(** What [simplify_results] leaves under a key whose collected list is [l]. *)
Definition unwrap (l : list pyval) : pyval :=
  match l with
  | [x] => x
  | _ => PList l
  end.

(** [defaultdict_append], over a list of items to file under their keys. *)
Definition collect {K : Type} `{EqDecision K} {T : Type} (key : T → K)
    (item : T → pyval) (ts : list T) (results : dict K (list pyval)) : dict K (list pyval) :=
  fold_left (λ results t, defaultdict_append (key t) (item t) results) ts results.

(** What ends up under a task name, given the items of the tasks bearing
    that name: nothing when there is no such task, the item itself when
    there is one, the list of the items otherwise. *)
Definition grouped (items : list pyval) : option pyval :=
  match items with
  | [] => None
  | [item] => Some item
  | _ => Some (PList items)
  end.

(** *** Dependency edges *)

(** The number of occurrences of [x] in [l]. *)
Definition occurrences (x : oid) (l : list oid) : nat := count_occ Nat.eq_dec l x.

(** The specs handed to [requires], as read when the call is made. *)
Definition given (h : heap) (arg : requires_arg) : list oid :=
  match arg with
  | ArgSpec p => [p]
  | ArgList r => deref h r
  end.

(** [self] appended to the successor list of every element of [l], one
    element after the other. *)
Definition append_successor (self : oid) (l : list oid) (h : heap) : heap :=
  fold_left (λ h p, required_by h p self) l h.

(** The effect [requires] has when the list it walks is not changed under
    its feet. *)
Definition requires_effect (h : heap) (self : oid) (l : list oid) : heap :=
  append_successor self l (extend_predecessors h self l).

(** The argument is a single spec or a list of the caller's own, or an
    internal list that the call leaves alone while it walks it: not the
    non-empty predecessor list of [self] itself, and not the successor list
    of a spec that occurs in that very list. *)
Definition unaliased (h : heap) (self : oid) (arg : requires_arg) : Prop :=
  match arg with
  | ArgSpec _ | ArgList (LFresh _) => True
  | ArgList (LPreds o) => o ≠ self ∨ _predecessors (h self) = []
  | ArgList (LSuccs o) => o ∉ _successors (h o)
  end.

(** Every call of a sequence is unaliased in the heap it is made in, which
    is the heap the calls before it leave (lemma [requires_unaliased]). *)
Fixpoint unaliased_calls (h : heap) (calls : list (oid * requires_arg)) : Prop :=
  match calls with
  | [] => True
  | (self, arg) :: calls' =>
      unaliased h self arg
      ∧ unaliased_calls (requires_effect h self (given h arg)) calls'
  end.

(** What the specification says [requires] does to the two lists of every
    object, for the given specs [l]. *)
Definition edges_appended (h : heap) (self : oid) (l : list oid) (h' : heap)
    : Prop :=
  _predecessors (h' self) = _predecessors (h self) ++ l
  ∧ (∀ o, o ≠ self → _predecessors (h' o) = _predecessors (h o))
  ∧ (∀ o, _successors (h' o) = _successors (h o) ++ repeat self (occurrences o l))
  ∧ (∀ o, o ∉ l → _successors (h' o) = _successors (h o)).

(** Every edge is recorded as often at its source as at its target. *)
Definition edge_symmetric (h : heap) : Prop :=
  ∀ a b, occurrences b (_predecessors (h a)) = occurrences a (_successors (h b)).

(** *** A small store to run the packing functions on

    Every task has saved one artifact per published name, holding the
    name's length. *)
Definition demo_get_results (task_name : option string)
    (task_unique_config : option pydict) (task_publishes : option (list string))
    : pydict :=
  (λ artifact, (artifact, PInt (Z.of_nat (String.length artifact))))
    <$> remove_dups (default [] task_publishes).

Definition demo_task (n : string) (lr : Z) (pub : list string) : Task :=
  {| Task_dep := DependencyMixin_init;
     kwargs := Some [("lr", PInt lr)];
     _name := Some n;
     _publishes := Some pub;
     _id := None;
     _unique_config := Some [(n, PDict [("lr", PInt lr)])];
     _reduce := false;
     _force := None;
     _results_store := None;
     _resource := None |}.

(** *** Further vocabulary *)

(** The text [pack_predecessor_results] raises with, for the predecessor
    [p] whose result brings [key] a second time. *)
Definition clash_message (p : Task) (key : string) : string :=
  format_name (name p) +:+ " saves a key '" +:+ key
  +:+ "' that already exists in another tasks's result".

(** The list a call of [requires] is handed when its argument is a single
    spec or a list of the caller's own; [None] for an internal list. *)
Definition plain_given (arg : requires_arg) : option (list oid) :=
  match arg with
  | ArgSpec p => Some [p]
  | ArgList (LFresh l) => Some l
  | ArgList (LPreds _) | ArgList (LSuccs _) => None
  end.

(** Everything handed to [a.requires] by a sequence of calls, in call
    order. *)
Definition handed_to (a : oid) (calls : list (oid * requires_arg)) : list oid :=
  mjoin ((λ call, if decide (call.1 = a)
                  then default [] (plain_given call.2) else []) <$> calls).

(** One copy of the receiver for every time [b] is handed over, in call
    order. *)
Definition receivers_of (b : oid) (calls : list (oid * requires_arg)) : list oid :=
  mjoin ((λ call, repeat call.1
                    (occurrences b (default [] (plain_given call.2)))) <$> calls).

(** Losses for the examples: an integer, or [None] for infinity. *)
Definition demo_le (x y : option Z) : bool :=
  match x, y with
  | _, None => true
  | None, Some _ => false
  | Some a, Some b => (a <=? b)%Z
  end.

Definition demo_sweep (loss : Z) (lr : Z) : Sweep (option Z) :=
  {| sweep_value := [("epoch", Some 3%Z); ("valid_loss", Some loss)];
     sweep_config := [("lr", PInt lr)] |}.

(** * Properties *)

(** ** Dictionaries *)

Section DictFacts.
Context {K V : Type} `{EqDecision K}.
Implicit Types (d : list (K * V)) (k : K) (v : V).

Lemma dict_keys_app d1 d2 : Dict.keys (d1 ++ d2) = Dict.keys d1 ++ Dict.keys d2.
Proof. unfold Dict.keys. apply fmap_app. Qed.

Lemma dict_get_elem_of k v d :
  Dict.wf d → Dict.get k d = Some v ↔ (k, v) ∈ d.
Proof.
  unfold Dict.wf. induction d as [|[k' v'] d IH]; simpl; intros Hwf.
  - split; [done | intros Hin; by apply elem_of_nil in Hin].
  - apply NoDup_cons in Hwf as [Hk' Hwf]. rewrite elem_of_cons.
    case_decide as Hk; subst.
    + split; [intros [= ->]; by left|].
      intros [[= ->]|Hin]; [done|]. destruct Hk'.
      apply list_elem_of_fmap. by exists (k', v).
    + rewrite IH by done. split; [by right|].
      by intros [[= -> ->]|Hin].
Qed.

Lemma dict_contains_false k d : Dict.contains k d = false ↔ k ∉ Dict.keys d.
Proof. unfold Dict.contains. by rewrite bool_decide_eq_false. Qed.

Lemma dict_set_absent k v d : k ∉ Dict.keys d → Dict.set k v d = d ++ [(k, v)].
Proof.
  induction d as [|[k' v'] d IH]; simpl; [done|].
  rewrite not_elem_of_cons. intros [Hne Hk].
  case_decide; [done|]. by rewrite IH.
Qed.

Lemma dict_set_present k v v' d1 d2 :
  k ∉ Dict.keys d1 → Dict.set k v (d1 ++ (k, v') :: d2) = d1 ++ (k, v) :: d2.
Proof.
  induction d1 as [|[k1 v1] d1 IH]; simpl.
  - intros _. by case_decide.
  - rewrite not_elem_of_cons. intros [Hne Hk].
    case_decide; [done|]. by rewrite IH.
Qed.

Lemma dict_keys_set k v d :
  Dict.keys (Dict.set k v d) =
  if decide (k ∈ Dict.keys d) then Dict.keys d else Dict.keys d ++ [k].
Proof.
  induction d as [|[k' v'] d IH].
  - destruct (decide (k ∈ Dict.keys [])) as [Hin|_]; [|done].
    by apply elem_of_nil in Hin.
  - destruct (decide (k ∈ Dict.keys ((k', v') :: d))) as [Hin|Hin];
      destruct (decide (k ∈ Dict.keys d)) as [Hin'|Hin'];
      cbn [Dict.set]; case_decide as Hk; subst;
      unfold Dict.keys in *; rewrite ?fmap_cons in *; cbn [fst] in *;
      rewrite ?IH; try done.
    all: rewrite ?elem_of_cons, ?not_elem_of_cons in Hin; tauto.
Qed.

Lemma dict_wf_set k v d : Dict.wf d → Dict.wf (Dict.set k v d).
Proof.
  unfold Dict.wf. rewrite dict_keys_set. case_decide as Hin; [done|].
  intros Hwf. apply NoDup_app. split_and!; [done| |apply NoDup_singleton].
  intros x Hx ->%list_elem_of_singleton. done.
Qed.

Lemma dict_get_set k k' v d :
  Dict.get k' (Dict.set k v d) = if decide (k' = k) then Some v else Dict.get k' d.
Proof.
  induction d as [|[k1 v1] d IH]; simpl.
  - by case_decide.
  - destruct (decide (k = k1)) as [->|Hne]; simpl.
    + by case_decide.
    + rewrite IH. repeat case_decide; congruence.
Qed.

End DictFacts.

Example demo_pack_predecessor_results_merges :
  run (pack_predecessor_results demo_get_results
         [demo_task "data" 0 ["train"; "test"]; demo_task "tok" 0 ["vocab"]]
         false)
  = (Returned [("train", PInt 5); ("test", PInt 4); ("vocab", PInt 5)],
     [call_of (demo_task "data" 0 ["train"; "test"]);
      call_of (demo_task "tok" 0 ["vocab"])]).
Proof. reflexivity. Qed.

Example demo_pack_predecessor_results_clash :
  run (pack_predecessor_results demo_get_results
         [demo_task "data" 0 ["train"; "test"]; demo_task "tok" 0 ["test"];
          demo_task "late" 0 ["x"]]
         false)
  = (Raised (TaskResultKeyAlreadyExists
       "tok saves a key 'test' that already exists in another tasks's result"),
     [call_of (demo_task "data" 0 ["train"; "test"]);
      call_of (demo_task "tok" 0 ["test"])]).
Proof. reflexivity. Qed.

Example demo_pack_predecessor_results_reduce :
  fst (run (pack_predecessor_results demo_get_results
         [demo_task "train" 1 ["m"]; demo_task "train" 2 ["m"]] true))
  = Returned [("reduced_results",
       PList [PDict [("result", PDict [("m", PInt 1)]);
                     ("config", PDict [("train", PDict [("lr", PInt 1)])])];
              PDict [("result", PDict [("m", PInt 1)]);
                     ("config", PDict [("train", PDict [("lr", PInt 2)])])]])].
Proof. reflexivity. Qed.

Example demo_pack_results_groups :
  fst (run (pack_results demo_get_results
         [demo_task "train" 1 ["m"]; demo_task "data" 0 [];
          demo_task "train" 2 ["m"]] false))
  = Returned
      [(Some "train", PList [PDict [("train", PDict [("lr", PInt 1)])];
                             PDict [("train", PDict [("lr", PInt 2)])]]);
       (Some "data", PDict [("data", PDict [("lr", PInt 0)])])].
Proof. reflexivity. Qed.

(** ** Lists of key lists *)

Lemma clash_cons_tail {A : Type} (k : list A) ks : clash ks → clash (k :: ks).
Proof.
  intros (i & j & ki & kj & x & Hlt & Hi & Hj & Hxi & Hxj).
  exists (S i), (S j), ki, kj, x. split_and!; [lia|done..].
Qed.

Lemma clash_cons_head {A : Type} (k : list A) ks x :
  x ∈ k → x ∈ mjoin ks → clash (k :: ks).
Proof.
  intros Hx (kj & Hxj & [j Hj]%list_elem_of_lookup)%list_elem_of_join.
  exists 0, (S j), k, kj, x. split_and!; [lia|done..].
Qed.

Lemma clash_cons_inv {A : Type} (k : list A) ks :
  clash (k :: ks) → clash ks ∨ ∃ x, x ∈ k ∧ x ∈ mjoin ks.
Proof.
  intros (i & j & ki & kj & x & Hlt & Hi & Hj & Hxi & Hxj).
  destruct j as [|j]; [lia|]. destruct i as [|i]; simplify_eq/=.
  - right. exists x. split; [done|]. apply list_elem_of_join.
    exists kj. split; [done|]. by eapply list_elem_of_lookup_2.
  - left. exists i, j, ki, kj, x. split_and!; [lia|done..].
Qed.

Lemma NoDup_join_clash {A : Type} `{EqDecision A} (ks : list (list A)) :
  Forall NoDup ks → NoDup (mjoin ks) ↔ ¬ clash ks.
Proof.
  induction 1 as [|k ks Hk Hks IH]; simpl.
  - split; [|intros _; constructor].
    intros _ (i & j & ki & kj & x & _ & Hi & _). done.
  - rewrite NoDup_app, IH. split.
    + intros (_ & Hdisj & Hno) [Hc|(x & Hx & Hx')]%clash_cons_inv; [done|].
      by eapply Hdisj.
    + intros Hno. split_and!; [done| |].
      * intros x Hx Hx'. apply Hno. by eapply clash_cons_head.
      * intros Hc. apply Hno. by apply clash_cons_tail.
Qed.

Lemma clash_or_NoDup {A : Type} `{EqDecision A} (ks : list (list A)) :
  Forall NoDup ks → clash ks ∨ NoDup (mjoin ks).
Proof.
  induction 1 as [|k ks Hk Hks [IH|IH]]; simpl.
  - right. constructor.
  - left. by apply clash_cons_tail.
  - destruct (decide (Exists (λ x, x ∈ mjoin ks) k)) as [Hex|Hex].
    + left. apply Exists_exists in Hex as (x & Hx & Hx').
      by eapply clash_cons_head.
    + right. apply NoDup_app. split_and!; [done| |done].
      intros x Hx Hx'. apply Hex, Exists_exists. by exists x.
Qed.

(** ** Packing predecessor results *)

Section PackingFacts.
Variable get_results :
  option string → option pydict → option (list string) → pydict.

Local Abbreviation results_of := (results_of get_results).
Local Abbreviation duplicate_key := (duplicate_key get_results).
Local Abbreviation record_of :=
  (λ task : Task, result_record (results_of task) (unique_config task)).

Lemma pack_reduced_spec tasks acc log :
  pack_reduced get_results tasks acc log
  = (Returned (acc ++ (record_of <$> tasks)), log ++ (call_of <$> tasks)).
Proof.
  revert acc log. induction tasks as [|t tasks IH]; intros acc log; simpl.
  - by rewrite !app_nil_r.
  - unfold mbind, M_bind, store_get_results. rewrite IH.
    by rewrite <- !app_assoc.
Qed.

Lemma mergeable_cons k v items acc :
  mergeable ((k, v) :: items) acc
  ↔ (k ∉ Dict.keys acc) ∧ mergeable items (acc ++ [(k, v)]).
Proof.
  unfold mergeable, Dict.keys.
  rewrite fmap_cons, fmap_app, NoDup_cons. simpl. split.
  - intros [[Hk Hnd] Hdisj]. split_and!; [apply Hdisj; by left|done|].
    intros k' Hk' [Hin| ->%list_elem_of_singleton]%elem_of_app; [|done].
    eapply Hdisj; [by right|done].
  - intros (Hk & Hnd & Hdisj). split_and!; [|done|].
    + intros Hin. eapply Hdisj; [done|]. apply elem_of_app. right. by left.
    + intros k' [->|Hk']%elem_of_cons; [done|].
      intros Hin. eapply Hdisj; [done|]. apply elem_of_app. by left.
Qed.

Lemma mergeable_app items1 items2 acc :
  mergeable (items1 ++ items2) acc
  ↔ mergeable items1 acc ∧ mergeable items2 (acc ++ items1).
Proof.
  revert acc. induction items1 as [|[k v] items1 IH]; intros acc.
  - rewrite app_nil_r. simpl. split; [|by intros [_ ?]].
    intros Hm. split; [|done]. split; [constructor|].
    intros k Hk. by apply elem_of_nil in Hk.
  - simpl. rewrite !mergeable_cons, IH, <- app_assoc. simpl. tauto.
Qed.

Lemma merge_result_spec p items acc log :
  (mergeable items acc
   ∧ merge_result p items acc log = (Returned (acc ++ items), log))
  ∨ (¬ mergeable items acc
     ∧ ∃ e, merge_result p items acc log = (Raised e, log)).
Proof.
  revert acc. induction items as [|[k v] items IH]; intros acc; simpl.
  - left. rewrite app_nil_r. split; [|done]. split; [constructor|].
    intros k Hk. by apply elem_of_nil in Hk.
  - rewrite mergeable_cons. destruct (Dict.contains k acc) eqn:Hc.
    + right. split; [|by eexists].
      intros [Hk _]. apply dict_contains_false in Hk. congruence.
    + apply dict_contains_false in Hc. rewrite dict_set_absent by done.
      destruct (IH (acc ++ [(k, v)])) as [[Hm ->]|[Hm [e ->]]].
      * left. by rewrite <- app_assoc.
      * right. split; [tauto | by eexists].
Qed.

Lemma pack_merged_spec tasks acc log :
  let all := mjoin (results_of <$> tasks) in
  (mergeable all acc
   ∧ pack_merged get_results tasks acc log
     = (Returned (acc ++ all), log ++ (call_of <$> tasks)))
  ∨ (¬ mergeable all acc
     ∧ ∃ e log', pack_merged get_results tasks acc log = (Raised e, log')).
Proof.
  revert acc log. induction tasks as [|t tasks IH]; intros acc log; simpl.
  - left. rewrite !app_nil_r. split; [|done]. split; [constructor|].
    intros k Hk. by apply elem_of_nil in Hk.
  - rewrite mergeable_app. unfold mbind, M_bind, store_get_results.
    destruct (merge_result_spec t (results_of t) acc (log ++ [call_of t]))
      as [[Hm ->]|[Hm [e ->]]].
    + destruct (IH (acc ++ results_of t) (log ++ [call_of t]))
        as [[Hm' ->]|[Hm' (e & log' & ->)]].
      * left. by rewrite <- !app_assoc.
      * right. split; [tauto | by eexists _, _].
    + right. split; [tauto | by eexists _, _].
Qed.

Lemma mergeable_nil_r items : mergeable items [] ↔ NoDup (Dict.keys items).
Proof.
  unfold mergeable. split; [by intros [? _]|]. intros Hnd. split; [done|].
  intros k _ Hk. by apply elem_of_nil in Hk.
Qed.

Lemma keys_join (ds : list pydict) :
  Dict.keys (mjoin ds) = mjoin (Dict.keys <$> ds).
Proof.
  induction ds as [|d ds IH]; simpl; [done|].
  by rewrite dict_keys_app, IH.
Qed.

Lemma duplicate_key_clash tasks :
  duplicate_key tasks ↔ clash (Dict.keys <$> (results_of <$> tasks)).
Proof.
  unfold duplicate_key, clash. split.
  - intros (i & j & pi & pj & key & Hlt & Hi & Hj & Hki & Hkj).
    exists i, j, (Dict.keys (results_of pi)), (Dict.keys (results_of pj)), key.
    rewrite !list_lookup_fmap, Hi, Hj. done.
  - intros (i & j & ki & kj & key & Hlt & Hi & Hj & Hki & Hkj).
    rewrite !list_lookup_fmap in Hi, Hj.
    destruct (tasks !! i) as [pi|] eqn:Hpi; [|done].
    destruct (tasks !! j) as [pj|] eqn:Hpj; [|done].
    simplify_eq/=. by exists i, j, pi, pj, key.
Qed.

(** C2. For a reduce task, [pack_predecessor_results] returns a dictionary
    whose only key is ["reduced_results"]; its value is the list holding,
    for every predecessor and in the order of the predecessor list, the
    dictionary with exactly the keys ['result'] (what the store's
    [get_results] answers for that predecessor) and ['config'] (the
    predecessor's [unique_config]).  The list is as long as the
    predecessor list, and the store is asked once per predecessor. *)
Theorem pack_predecessor_results_reduce (predecessor_tasks : list Task) :
  ∃ reduced_results : list pyval,
    run (pack_predecessor_results get_results predecessor_tasks true)
    = (Returned [("reduced_results", PList reduced_results)],
       call_of <$> predecessor_tasks)
    ∧ length reduced_results = length predecessor_tasks
    ∧ ∀ i, reduced_results !! i
           = (λ p, PDict [("result", PDict (results_of p));
                          ("config", py_of_config (unique_config p))])
               <$> predecessor_tasks !! i.
Proof.
  exists (record_of <$> predecessor_tasks). split_and!.
  - unfold run, pack_predecessor_results, mbind, M_bind.
    by rewrite pack_reduced_spec.
  - apply length_fmap.
  - intros i. by rewrite list_lookup_fmap.
Qed.

Section DictStore.
(** What [get_results] answers is a [dict]. *)
Hypothesis get_results_dict :
  ∀ task_name task_unique_config task_publishes,
    Dict.wf (get_results task_name task_unique_config task_publishes).

Lemma results_of_wf tasks : Forall NoDup (Dict.keys <$> (results_of <$> tasks)).
Proof.
  apply Forall_fmap, Forall_fmap, Forall_forall. intros t _.
  apply get_results_dict.
Qed.

Lemma pack_merged_run tasks :
  (¬ duplicate_key tasks
   ∧ run (pack_merged get_results tasks [])
     = (Returned (mjoin (results_of <$> tasks)), call_of <$> tasks))
  ∨ (duplicate_key tasks
     ∧ ∃ e log, run (pack_merged get_results tasks []) = (Raised e, log)).
Proof.
  unfold run. rewrite duplicate_key_clash.
  pose proof (NoDup_join_clash _ (results_of_wf tasks)) as Hiff.
  rewrite <- keys_join, <- mergeable_nil_r in Hiff.
  destruct (pack_merged_spec tasks [] []) as [[Hm Hrun]|[Hm Hrun]].
  - left. split; [by apply Hiff|done].
  - right. split; [|done].
    destruct (clash_or_NoDup _ (results_of_wf tasks)) as [Hc|Hnd]; [done|].
    destruct Hm. by rewrite mergeable_nil_r, keys_join.
Qed.

(** C1. Without the reduce flag, [pack_predecessor_results] raises if and
    only if two predecessors at different positions of the list have store
    results that hold a common artifact key.  What it raises is
    [TaskResultKeyAlreadyExists], and then no result dictionary is
    returned. *)
Theorem pack_predecessor_results_raises_iff (predecessor_tasks : list Task) :
  let out := (run (pack_predecessor_results get_results predecessor_tasks false)).1 in
  ((∃ e, out = Raised e) ↔ duplicate_key predecessor_tasks)
  ∧ (∀ e, out = Raised e →
       (∃ msg, e = TaskResultKeyAlreadyExists msg)
       ∧ ∀ results, out ≠ Returned results).
Proof.
  cbn zeta. unfold pack_predecessor_results.
  destruct (pack_merged_run predecessor_tasks)
    as [[Hno ->]|[Hdup (e & log & ->)]]; simpl.
  - split; [|done]. split; [by intros [e ?]|done].
  - split; [split; [done|by exists e]|].
    intros e' [= <-]. split; [|done]. destruct e. by eexists.
Qed.

(** C3. Without the reduce flag and when the store results of the
    predecessors have pairwise disjoint key sets,
    [pack_predecessor_results] asks the store exactly once per predecessor,
    in order, with the predecessor's name, [unique_config] and [publishes],
    and returns the union of the answers: the items of all answers, each
    key bound to the value its predecessor's answer gives it. *)
Theorem pack_predecessor_results_union (predecessor_tasks : list Task) :
  (∀ i j pi pj key,
     i ≠ j → predecessor_tasks !! i = Some pi → predecessor_tasks !! j = Some pj →
     key ∈ Dict.keys (results_of pi) → key ∉ Dict.keys (results_of pj)) →
  ∃ results,
    run (pack_predecessor_results get_results predecessor_tasks false)
    = (Returned results, call_of <$> predecessor_tasks)
    ∧ results = mjoin (results_of <$> predecessor_tasks)
    ∧ Dict.wf results
    ∧ ∀ key value,
        Dict.get key results = Some value
        ↔ ∃ p, p ∈ predecessor_tasks ∧ Dict.get key (results_of p) = Some value.
Proof.
  intros Hdisj. exists (mjoin (results_of <$> predecessor_tasks)).
  assert (¬ duplicate_key predecessor_tasks) as Hno.
  { intros (i & j & pi & pj & key & Hlt & Hi & Hj & Hki & Hkj).
    eapply (Hdisj i j); [lia|done..]. }
  assert (Dict.wf (mjoin (results_of <$> predecessor_tasks))) as Hwf.
  { unfold Dict.wf. rewrite keys_join.
    apply NoDup_join_clash; [apply results_of_wf|].
    by rewrite <- duplicate_key_clash. }
  split_and!; [|done|done|].
  - unfold pack_predecessor_results.
    by destruct (pack_merged_run predecessor_tasks) as [[_ ->]|[? _]].
  - intros key value. rewrite dict_get_elem_of by done.
    rewrite list_elem_of_join. split.
    + intros (r & Hin & (p & -> & Hp)%list_elem_of_fmap).
      exists p. split; [done|].
      by apply dict_get_elem_of; [apply get_results_dict|].
    + intros (p & Hp & Hget). exists (results_of p). split.
      * by apply dict_get_elem_of in Hget; [|apply get_results_dict].
      * by apply list_elem_of_fmap_2.
Qed.

End DictStore.
End PackingFacts.

(** ** Packing the results of a run *)

Section SimplifyFacts.
Context {K : Type} `{EqDecision K}.

Lemma simplify_loop_spec (seen : dict K pyval) (rest : dict K (list pyval))
    (n : nat) :
  NoDup (Dict.keys seen ++ Dict.keys rest) →
  length rest ≤ n →
  simplify_loop n (length seen) (seen ++ (prod_map id PList <$> rest))
  = seen ++ (prod_map id unwrap <$> rest).
Proof.
  revert seen n. induction rest as [|[k l] rest IH]; intros seen n Hnd Hn.
  - simpl. rewrite app_nil_r. destruct n as [|n]; simpl; [done|].
    by rewrite lookup_ge_None_2.
  - destruct n as [|n]; simpl in Hn; [lia|]. cbn [simplify_loop].
    rewrite fmap_cons. cbn [prod_map fst snd id].
    rewrite list_lookup_middle by done.
    assert (k ∉ Dict.keys seen) as Hk.
    { apply NoDup_app in Hnd as (_ & Hdisj & _). intros Hin.
      eapply Hdisj; [done|]. by left. }
    assert (∀ v : pyval,
      simplify_loop n (S (length seen))
        (seen ++ (k, v) :: (prod_map id PList <$> rest))
      = seen ++ (k, v) :: (prod_map id unwrap <$> rest)) as Hstep.
    { intros v. rewrite !(cons_middle (k, v) seen), !app_assoc.
      replace (S (length seen)) with (length (seen ++ [(k, v)]))
        by (rewrite length_app; simpl; lia).
      apply IH; [|lia].
      rewrite dict_keys_app, <- app_assoc. done. }
    destruct l as [|x [|y l]]; cbn [unwrap fmap list_fmap prod_map fst snd id].
    + apply Hstep.
    + rewrite dict_set_present by done. apply Hstep.
    + apply Hstep.
Qed.

Lemma simplify_results_spec (results : dict K (list pyval)) :
  Dict.wf results → simplify_results results = prod_map id unwrap <$> results.
Proof.
  intros Hwf. unfold simplify_results.
  apply (simplify_loop_spec [] results); [done|].
  by rewrite length_fmap.
Qed.

Lemma dict_get_fmap {V W : Type} (f : V → W) (k : K) (d : dict K V) :
  Dict.get k (prod_map id f <$> d) = f <$> Dict.get k d.
Proof.
  induction d as [|[k' v'] d IH]; simpl; [done|]. by case_decide.
Qed.

Lemma collect_wf {T : Type} (key : T → K) item ts results :
  Dict.wf results → Dict.wf (collect key item ts results).
Proof.
  unfold collect. revert results.
  induction ts as [|t ts IH]; intros results Hwf; simpl; [done|].
  apply IH. by apply dict_wf_set.
Qed.

Lemma collect_get {T : Type} (key : T → K) item ts results k :
  Dict.get k (collect key item ts results)
  = match Dict.get k results, item <$> filter (λ t, key t = k) ts with
    | None, [] => None
    | o, l => Some (default [] o ++ l)
    end.
Proof.
  unfold collect. revert results.
  induction ts as [|t ts IH]; intros results; simpl.
  - destruct (Dict.get k results); simpl; [by rewrite app_nil_r|done].
  - rewrite IH. unfold defaultdict_append.
    rewrite dict_get_set, filter_cons.
    destruct (decide (key t = k)) as [<-|Hne].
    + rewrite decide_True by done. rewrite fmap_cons.
      destruct (Dict.get (key t) results) as [l|]; simpl.
      * rewrite <- app_assoc. simpl.
        by destruct (l ++ item t :: _) eqn:E; [destruct l|].
      * by destruct (item <$> _).
    + rewrite decide_False by done. done.
Qed.

End SimplifyFacts.

Section PackResultsFacts.
Variable get_results :
  option string → option pydict → option (list string) → pydict.

Local Abbreviation results_of := (results_of get_results).
Local Abbreviation record_of :=
  (λ task : Task, result_record (results_of task) (unique_config task)).

Lemma pack_results_load_spec tasks results log :
  pack_results_load get_results tasks results log
  = (Returned (collect name record_of tasks results), log ++ (call_of <$> tasks)).
Proof.
  unfold collect. revert results log.
  induction tasks as [|t tasks IH]; intros results log; simpl.
  - by rewrite app_nil_r.
  - unfold mbind, M_bind, store_get_results. rewrite IH.
    by rewrite <- app_assoc.
Qed.

Lemma pack_results_configs_spec tasks results :
  pack_results_configs tasks results
  = collect name (λ task, py_of_config (unique_config task)) tasks results.
Proof.
  unfold collect. revert results.
  induction tasks as [|t tasks IH]; intros results; simpl; [done|].
  by rewrite IH.
Qed.

Lemma simplify_collect_get {T : Type} (key : T → option string) item ts k :
  Dict.get k (simplify_results (collect key item ts []))
  = grouped (item <$> filter (λ t, key t = k) ts).
Proof.
  rewrite simplify_results_spec by (apply collect_wf; constructor).
  rewrite dict_get_fmap, collect_get. simpl.
  by destruct (item <$> _) as [|x [|y l]].
Qed.

(** C4. With [return_results = True], [pack_results] loads the results of
    every task from the store, under the task's name, [unique_config] and
    [publishes], and groups the [{'result', 'config'}] records by task
    name: a name borne by exactly one task is bound to that task's record
    (taken out of its list), a name borne by several tasks to the list of
    their records in task order, and no other name is bound. *)
Theorem pack_results_groups_records (all_tasks : list Task) :
  ∃ results,
    run (pack_results get_results all_tasks true)
    = (Returned results, call_of <$> all_tasks)
    ∧ ∀ task_name,
        Dict.get task_name results
        = match filter (λ task, name task = task_name) all_tasks with
          | [] => None
          | [task] =>
              Some (PDict [("result", PDict (results_of task));
                           ("config", py_of_config (unique_config task))])
          | tasks =>
              Some (PList ((λ task,
                      PDict [("result", PDict (results_of task));
                             ("config", py_of_config (unique_config task))])
                    <$> tasks))
          end.
Proof.
  eexists. split.
  - unfold run, pack_results, mbind, M_bind.
    rewrite pack_results_load_spec. reflexivity.
  - intros task_name. rewrite simplify_collect_get.
    by destruct (filter _ all_tasks) as [|t [|t' l]].
Qed.

(** C9. With [return_results = False], [pack_results] does not access the
    store and binds every task name to the [unique_config]s of the tasks
    bearing it, in task order; the list is replaced by its only element
    when exactly one task bears the name. *)
Theorem pack_results_groups_configs (all_tasks : list Task) :
  ∃ results,
    run (pack_results get_results all_tasks false) = (Returned results, [])
    ∧ ∀ task_name,
        Dict.get task_name results
        = match filter (λ task, name task = task_name) all_tasks with
          | [] => None
          | [task] => Some (py_of_config (unique_config task))
          | tasks => Some (PList ((λ task, py_of_config (unique_config task))
                                  <$> tasks))
          end.
Proof.
  eexists. split; [reflexivity|].
  intros task_name.
  rewrite pack_results_configs_spec, simplify_collect_get.
  by destruct (filter _ all_tasks) as [|t [|t' l]].
Qed.

End PackResultsFacts.

(** ** Dependency edges *)

Lemma occurrences_app x l1 l2 :
  occurrences x (l1 ++ l2) = occurrences x l1 + occurrences x l2.
Proof. apply count_occ_app. Qed.

Lemma occurrences_repeat x y n :
  occurrences x (repeat y n) = if decide (x = y) then n else 0.
Proof.
  unfold occurrences. case_decide.
  - by apply count_occ_repeat_eq.
  - by apply count_occ_repeat_neq.
Qed.

Lemma occurrences_not_elem x l : x ∉ l → occurrences x l = 0.
Proof. rewrite list_elem_of_In. apply count_occ_not_In. Qed.

Lemma predecessors_required_by h p self o :
  _predecessors (required_by h p self o) = _predecessors (h o).
Proof. unfold required_by. by case_decide. Qed.

Lemma successors_required_by h p self o :
  _successors (required_by h p self o)
  = _successors (h o) ++ (if decide (o = p) then [self] else []).
Proof. unfold required_by. case_decide; simpl; [done|]. by rewrite app_nil_r. Qed.

Lemma predecessors_append_successor self l h o :
  _predecessors (append_successor self l h o) = _predecessors (h o).
Proof.
  unfold append_successor. revert h.
  induction l as [|p l IH]; intros h; simpl; [done|].
  by rewrite IH, predecessors_required_by.
Qed.

Lemma successors_append_successor self l h o :
  _successors (append_successor self l h o)
  = _successors (h o) ++ repeat self (occurrences o l).
Proof.
  unfold append_successor, occurrences. revert h.
  induction l as [|p l IH]; intros h; simpl; [by rewrite app_nil_r|].
  rewrite IH, successors_required_by, <- app_assoc.
  destruct (Nat.eq_dec p o) as [->|Hne].
  - by rewrite decide_True.
  - by rewrite decide_False.
Qed.

Lemma requires_effect_appends h self l :
  edges_appended h self l (requires_effect h self l).
Proof.
  unfold edges_appended, requires_effect. split_and!.
  - rewrite predecessors_append_successor. unfold extend_predecessors.
    by rewrite decide_True.
  - intros o Hne. rewrite predecessors_append_successor.
    unfold extend_predecessors. by rewrite decide_False.
  - intros o. rewrite successors_append_successor.
    unfold extend_predecessors. by case_decide.
  - intros o Hin. rewrite successors_append_successor.
    rewrite occurrences_not_elem by done. simpl. rewrite app_nil_r.
    unfold extend_predecessors. by case_decide.
Qed.

Lemma requires_effect_symmetric h self l :
  edge_symmetric h → edge_symmetric (requires_effect h self l).
Proof.
  intros Hsym a b.
  destruct (requires_effect_appends h self l) as (Hself & Hother & Hsucc & _).
  rewrite Hsucc, occurrences_app, occurrences_repeat, <- Hsym.
  destruct (decide (a = self)) as [->|Hne].
  - by rewrite Hself, occurrences_app.
  - rewrite Hother by done. lia.
Qed.

(** The loop of [requires], when the loop body leaves the walked list [l]
    as it is. *)
Lemma requires_loop_stable self r l fuel h i :
  deref h r = l →
  (∀ h' p, deref h' r = l → p ∈ l → deref (required_by h' p self) r = l) →
  length l - i < fuel →
  requires_loop fuel h self r i = Some (append_successor self (drop i l) h).
Proof.
  unfold append_successor. intros Hl Hstable. revert h i Hl.
  induction fuel as [|fuel IH]; intros h i Hl Hfuel; [lia|].
  simpl. rewrite Hl. destruct (l !! i) as [p|] eqn:Hi.
  - rewrite (drop_S _ _ _ Hi). simpl. apply IH.
    + apply Hstable; [done|]. by eapply list_elem_of_lookup_2.
    + apply lookup_lt_Some in Hi. lia.
  - apply lookup_ge_None in Hi. by rewrite drop_ge.
Qed.

Lemma requires_unaliased fuel h self arg :
  unaliased h self arg →
  length (given h arg) < fuel →
  requires fuel h self arg = Some (requires_effect h self (given h arg)).
Proof.
  intros Hun Hfuel. unfold requires, requires_effect.
  assert (∀ r l, l = given h arg →
    deref (extend_predecessors h self l) r = l →
    (∀ h' p, deref h' r = l → p ∈ l → deref (required_by h' p self) r = l) →
    requires_loop fuel (extend_predecessors h self l) self r 0
    = Some (append_successor self l (extend_predecessors h self l))) as Hloop.
  { intros r l -> Hl Hstable.
    rewrite (requires_loop_stable self r (given h arg)); [done..|lia]. }
  destruct arg as [p|[l|o|o]]; simpl in *; apply Hloop; simpl; try done.
  - unfold extend_predecessors. case_decide as Ho; [|done]. subst. simpl.
    by destruct Hun as [?| ->].
  - intros h' p' Hh' _. by rewrite predecessors_required_by.
  - unfold extend_predecessors. by case_decide.
  - intros h' p' Hh' Hp'. rewrite successors_required_by.
    case_decide; [by subst|]. by rewrite app_nil_r.
Qed.

Lemma requires_calls_unaliased calls h :
  unaliased_calls h calls →
  edge_symmetric h →
  ∃ h' fuel0,
    (∀ fuel, fuel0 ≤ fuel → requires_calls fuel h calls = Some h')
    ∧ edge_symmetric h'.
Proof.
  revert h. induction calls as [|[self arg] calls IH]; intros h Hun Hsym.
  - exists h, 0. by split.
  - destruct Hun as [Hun Hrest].
    destruct (IH _ Hrest (requires_effect_symmetric _ self (given h arg) Hsym))
      as (h' & fuel0 & Hrun & Hsym').
    exists h', (fuel0 `max` S (length (given h arg))). split; [|done].
    intros fuel Hfuel. simpl.
    rewrite requires_unaliased by (done || lia). apply Hrun. lia.
Qed.

Lemma fresh_heap_symmetric : edge_symmetric fresh_heap.
Proof. intros a b. reflexivity. Qed.

(** *** Calling [requires] twice with the same predecessor *)

(** C5 (as the code has it). [requires] keeps no record of the edges it
    has added: calling [a.requires(b)] twice appends [b] twice to the
    predecessor list of [a] and [a] twice to the successor list of [b]. *)
Theorem requires_twice_records_edge_twice (h : heap) (a b : oid) (fuel : nat) :
  ∃ h1 h2,
    requires (S (S fuel)) h a (ArgSpec b) = Some h1
    ∧ requires (S (S fuel)) h1 a (ArgSpec b) = Some h2
    ∧ _predecessors (h1 a) = _predecessors (h a) ++ [b]
    ∧ _successors (h1 b) = _successors (h b) ++ [a]
    ∧ _predecessors (h2 a) = _predecessors (h a) ++ [b; b]
    ∧ _successors (h2 b) = _successors (h b) ++ [a; a].
Proof.
  assert (occurrences b [b] = 1) as Hocc.
  { unfold occurrences. simpl. by destruct (Nat.eq_dec b b). }
  eexists _, _. rewrite !requires_unaliased by (simpl; done || lia).
  split_and!; [done..| | | |]; simpl.
  - by destruct (requires_effect_appends h a [b]) as (-> & _).
  - destruct (requires_effect_appends h a [b]) as (_ & _ & -> & _).
    by rewrite Hocc.
  - destruct (requires_effect_appends (requires_effect h a [b]) a [b])
      as (-> & _).
    destruct (requires_effect_appends h a [b]) as (-> & _).
    by rewrite <- app_assoc.
  - destruct (requires_effect_appends (requires_effect h a [b]) a [b])
      as (_ & _ & -> & _).
    destruct (requires_effect_appends h a [b]) as (_ & _ & -> & _).
    by rewrite Hocc, <- app_assoc.
Qed.

(** C5 fails as stated: on two fresh objects, the second [a.requires(b)]
    changes both lists again. *)
Lemma requires_twice_not_idempotent :
  ∃ h1 h2,
    requires 2 fresh_heap 0 (ArgSpec 1) = Some h1
    ∧ requires 2 h1 0 (ArgSpec 1) = Some h2
    ∧ _predecessors (h1 0) = [1] ∧ _predecessors (h2 0) = [1; 1]
    ∧ _successors (h1 1) = [0] ∧ _successors (h2 1) = [0; 0]
    ∧ _predecessors (h2 0) ≠ _predecessors (h1 0)
    ∧ _successors (h2 1) ≠ _successors (h1 1).
Proof. eexists _, _. split_and!; try reflexivity; discriminate. Qed.

(** *** What one call of [requires] does *)

(** C6 (as the code has it). When the argument is a single spec, a list
    of the caller's own, or an internal list the call does not change while
    walking it, [s.requires] returns and has appended the given specs, in
    order, to the predecessor list of [s], and [s] to the successor list of
    every given spec, once per occurrence; no other predecessor or
    successor list has changed. *)
Theorem requires_appends_edges (h : heap) (self : oid) (arg : requires_arg)
    (fuel : nat) :
  unaliased h self arg →
  length (given h arg) < fuel →
  ∃ h', requires fuel h self arg = Some h'
        ∧ edges_appended h self (given h arg) h'.
Proof.
  intros Hun Hfuel. exists (requires_effect h self (given h arg)).
  split; [by apply requires_unaliased | apply requires_effect_appends].
Qed.

Lemma requires_appends_edges_witness :
  unaliased fresh_heap 2 (ArgList (LFresh [0; 1; 0]))
  ∧ length (given fresh_heap (ArgList (LFresh [0; 1; 0]))) < 4
  ∧ ∃ h', requires 4 fresh_heap 2 (ArgList (LFresh [0; 1; 0])) = Some h'
          ∧ edges_appended fresh_heap 2 [0; 1; 0] h'.
Proof.
  split; [exact I|]. split; [simpl; lia|].
  apply (requires_appends_edges fresh_heap 2 (ArgList (LFresh [0; 1; 0])) 4);
    [exact I | simpl; lia].
Defined.

(** C6 fails as stated: after [a.requires(b)] on fresh objects [a = 0] and
    [b = 1], the call [a.requires(a.predecessors)] hands [requires] the
    predecessor list of [a] itself.  [extend] doubles that list, the loop
    then walks the doubled list, and [a] is appended twice to the
    successor list of [b]: the edges added are neither those of the list
    [[b]] that was handed over nor those of the list [[b; b]] it has
    become. *)
Lemma requires_own_predecessors_counterexample :
  ∃ h h',
    requires 2 fresh_heap 0 (ArgSpec 1) = Some h
    ∧ requires 3 h 0 (ArgList (LPreds 0)) = Some h'
    ∧ given h (ArgList (LPreds 0)) = [1]
    ∧ _predecessors (h 0) = [1] ∧ _successors (h 1) = [0]
    ∧ _predecessors (h' 0) = [1; 1] ∧ _successors (h' 1) = [0; 0; 0]
    ∧ ¬ edges_appended h 0 [1] h'
    ∧ ¬ edges_appended h 0 [1; 1] h'.
Proof.
  eexists _, _. split_and!; try reflexivity.
  - intros (_ & _ & Hsucc & _). specialize (Hsucc 1). discriminate Hsucc.
  - intros (Hpred & _). discriminate Hpred.
Qed.

(** *** Edge symmetry *)

(** C8 (as the code has it). Starting from fresh objects, after any
    sequence of [requires] calls none of which walks an internal list that
    it changes, every call returns and, for all objects [a] and [b], [b]
    occurs in the predecessor list of [a] as often as [a] occurs in the
    successor list of [b]. *)
Theorem requires_calls_edge_symmetric (calls : list (oid * requires_arg)) :
  unaliased_calls fresh_heap calls →
  ∃ h' fuel0,
    (∀ fuel, fuel0 ≤ fuel → requires_calls fuel fresh_heap calls = Some h')
    ∧ ∀ a b, occurrences b (_predecessors (h' a))
             = occurrences a (_successors (h' b)).
Proof.
  intros Hun. by apply requires_calls_unaliased, fresh_heap_symmetric.
Qed.

Lemma requires_calls_edge_symmetric_witness :
  let calls := [(0, ArgSpec 1); (2, ArgList (LFresh [0; 1]));
                (2, ArgList (LPreds 0)); (1, ArgList (LSuccs 0))] in
  unaliased_calls fresh_heap calls
  ∧ ∃ h' fuel0,
      (∀ fuel, fuel0 ≤ fuel → requires_calls fuel fresh_heap calls = Some h')
      ∧ ∀ a b, occurrences b (_predecessors (h' a))
               = occurrences a (_successors (h' b)).
Proof.
  assert (unaliased_calls fresh_heap
            [(0, ArgSpec 1); (2, ArgList (LFresh [0; 1]));
             (2, ArgList (LPreds 0)); (1, ArgList (LSuccs 0))]) as Hun.
  { simpl. split_and!; try exact I.
    - left. lia.
    - rewrite list_elem_of_singleton. lia. }
  split; [exact Hun|]. exact (requires_calls_edge_symmetric _ Hun).
Defined.

(** C8 fails as stated: after [a.requires(b)] and
    [a.requires(a.predecessors)], [b] occurs twice in the predecessor list
    of [a], and [a] three times in the successor list of [b]. *)
Lemma requires_calls_asymmetric_counterexample :
  ∃ h',
    requires_calls 3 fresh_heap [(0, ArgSpec 1); (0, ArgList (LPreds 0))]
    = Some h'
    ∧ _predecessors (h' 0) = [1; 1]
    ∧ _successors (h' 1) = [0; 0; 0]
    ∧ occurrences 1 (_predecessors (h' 0)) ≠ occurrences 0 (_successors (h' 1)).
Proof. eexists. split_and!; try reflexivity. discriminate. Qed.

(** Walking a successor list that the loop itself extends need not end:
    after [a.requires(a)], the call [a.requires(a.successors)] appends [a]
    to the list it walks at every step. *)
Lemma requires_loop_diverges fuel h i :
  (∀ x, x ∈ _successors (h 0) → x = 0) →
  i < length (_successors (h 0)) →
  requires_loop fuel h 0 (LSuccs 0) i = None.
Proof.
  revert h i. induction fuel as [|fuel IH]; intros h i Hall Hi; [done|].
  simpl. destruct (_successors (h 0) !! i) as [p|] eqn:Hp.
  - assert (p = 0) as -> by (by eapply Hall, list_elem_of_lookup_2).
    apply IH.
    + intros x. rewrite successors_required_by, decide_True by done.
      intros [Hx| ->%list_elem_of_singleton]%elem_of_app; [by apply Hall|done].
    + rewrite successors_required_by, decide_True, length_app by done.
      simpl. lia.
  - apply lookup_ge_None in Hp. lia.
Qed.

Example requires_own_successors_diverges fuel :
  requires fuel (requires_effect fresh_heap 0 [0]) 0 (ArgList (LSuccs 0)) = None.
Proof.
  unfold requires. apply requires_loop_diverges.
  - intros x ->%list_elem_of_singleton. done.
  - simpl. lia.
Qed.

(** ** The [Task] class *)

(** C10. A freshly constructed [Task] holds the [kwargs] it was given, has
    empty predecessor and successor lists, [reduce] equal to [False], and
    [name], [publishes], [id_], [unique_config], [force], [results_store]
    and [resource] all [None]. *)
Theorem Task_init_state (kw : option pydict) :
  let task := Task_init kw in
  kwargs task = kw
  ∧ predecessors task = [] ∧ successors task = []
  ∧ reduce task = false
  ∧ name task = None ∧ publishes task = None ∧ id_ task = None
  ∧ unique_config task = None ∧ force task = None
  ∧ results_store task = None ∧ resource task = None.
Proof. cbn zeta. by split_and!. Qed.

Example Task_getattr_run : Task_getattr "run" = Some (OwnerClass "Task").
Proof. reflexivity. Qed.

Example Task_getattr_requires :
  Task_getattr "requires" = Some (OwnerClass "DependencyMixin").
Proof. reflexivity. Qed.

Example Task_getattr_kwargs : Task_getattr "kwargs" = Some OwnerInstance.
Proof. reflexivity. Qed.

(** C7 (what the code has under the two method names). Neither the classes
    [Task] inherits from nor [Task.__init__] bind [save] or [load]: looking
    either up on a task raises [AttributeError], so there is no method that
    could delegate to [results_store]. *)
Theorem Task_getattr_save_load :
  Task_getattr "save" = None ∧ Task_getattr "load" = None.
Proof. split; reflexivity. Qed.

(** ** The packing theorems at the demonstration store *)

Lemma demo_get_results_dict task_name task_unique_config task_publishes :
  Dict.wf (demo_get_results task_name task_unique_config task_publishes).
Proof.
  unfold Dict.wf, Dict.keys, demo_get_results.
  assert (∀ l : list string,
    ((λ artifact, (artifact, PInt (Z.of_nat (String.length artifact)))) <$> l).*1
    = l) as ->.
  { induction l as [|x l IH]; [done|]. cbn. f_equal. exact IH. }
  apply NoDup_remove_dups.
Qed.

Lemma pack_predecessor_results_raises_iff_witness :
  let tasks := [demo_task "data" 0 ["train"; "test"];
                demo_task "tok" 0 ["test"]] in
  let out := (run (pack_predecessor_results demo_get_results tasks false)).1 in
  ((∃ e, out = Raised e) ↔ duplicate_key demo_get_results tasks)
  ∧ (∀ e, out = Raised e →
       (∃ msg, e = TaskResultKeyAlreadyExists msg)
       ∧ ∀ results, out ≠ Returned results).
Proof.
  exact (pack_predecessor_results_raises_iff demo_get_results
           demo_get_results_dict
           [demo_task "data" 0 ["train"; "test"]; demo_task "tok" 0 ["test"]]).
Defined.

Lemma pack_predecessor_results_union_witness :
  let tasks := [demo_task "data" 0 ["train"; "test"];
                demo_task "tok" 0 ["vocab"]] in
  ∃ results,
    run (pack_predecessor_results demo_get_results tasks false)
    = (Returned results, call_of <$> tasks)
    ∧ results = mjoin (results_of demo_get_results <$> tasks)
    ∧ Dict.wf results
    ∧ ∀ key value,
        Dict.get key results = Some value
        ↔ ∃ p, p ∈ tasks ∧ Dict.get key (results_of demo_get_results p) = Some value.
Proof.
  apply (pack_predecessor_results_union demo_get_results demo_get_results_dict).
  intros i j pi pj key Hne Hi Hj.
  destruct i as [|[|i]], j as [|[|j]]; simplify_eq/=; vm_compute.
  - intros Hin Hin'. apply list_elem_of_singleton in Hin' as ->.
    apply elem_of_cons in Hin as [Hin|Hin]; [discriminate|].
    apply list_elem_of_singleton in Hin. discriminate.
  - intros Hin Hin'. apply list_elem_of_singleton in Hin as ->.
    apply elem_of_cons in Hin' as [Hin'|Hin']; [discriminate|].
    apply list_elem_of_singleton in Hin'. discriminate.
Defined.

(** * Further properties of the code *)

(** ** [pack_predecessor_results]: which clash is reported *)

Lemma merge_result_first_clash p items1 key value items2 acc log :
  mergeable items1 acc →
  key ∈ Dict.keys (acc ++ items1) →
  merge_result p (items1 ++ (key, value) :: items2) acc log
  = (Raised (TaskResultKeyAlreadyExists (clash_message p key)), log).
Proof.
  revert acc. induction items1 as [|[k v] items1 IH]; intros acc Hm Hkey; simpl.
  - rewrite app_nil_r in Hkey. unfold Dict.contains.
    by rewrite bool_decide_eq_true_2.
  - apply mergeable_cons in Hm as [Hk Hm].
    apply dict_contains_false in Hk as Hc. rewrite Hc.
    rewrite dict_set_absent by done. apply IH; [done|].
    by rewrite <- app_assoc.
Qed.

Section ClashReport.
Variable get_results :
  option string → option pydict → option (list string) → pydict.
Hypothesis get_results_dict :
  ∀ task_name task_unique_config task_publishes,
    Dict.wf (get_results task_name task_unique_config task_publishes).

Local Abbreviation results_of := (results_of get_results).
Local Abbreviation duplicate_key := (duplicate_key get_results).

Lemma pack_merged_app tasks1 tasks2 acc log :
  pack_merged get_results (tasks1 ++ tasks2) acc log
  = match pack_merged get_results tasks1 acc log with
    | (Returned acc', log') => pack_merged get_results tasks2 acc' log'
    | (Raised e, log') => (Raised e, log')
    end.
Proof.
  revert acc log. induction tasks1 as [|t tasks1 IH]; intros acc log; simpl.
  - done.
  - unfold mbind, M_bind, store_get_results.
    destruct (merge_result t (results_of t) acc (log ++ [call_of t]))
      as [[acc'|e] log']; [apply IH|done].
Qed.

(** X1. When the predecessors before position [j] have pairwise disjoint
    results and [key] is the first key of the result of the predecessor at
    [j] that one of them already brought, [pack_predecessor_results] raises
    with the message naming that predecessor and that key, and the store
    has been asked about the predecessors up to [j] only. *)
Theorem pack_predecessor_results_first_clash (predecessor_tasks : list Task)
    (j : nat) (pj : Task) (items1 items2 : pydict) (key : string)
    (value : pyval) :
  predecessor_tasks !! j = Some pj →
  ¬ duplicate_key (take j predecessor_tasks) →
  results_of pj = items1 ++ (key, value) :: items2 →
  (∀ k p, k ∈ Dict.keys items1 → p ∈ take j predecessor_tasks →
          k ∉ Dict.keys (results_of p)) →
  (∃ p, p ∈ take j predecessor_tasks ∧ key ∈ Dict.keys (results_of p)) →
  run (pack_predecessor_results get_results predecessor_tasks false)
  = (Raised (TaskResultKeyAlreadyExists
       (format_name (name pj) +:+ " saves a key '" +:+ key
        +:+ "' that already exists in another tasks's result")),
     call_of <$> take (S j) predecessor_tasks).
Proof.
  intros Hj Hno Hitems Hfresh (p & Hp & Hkey).
  unfold run, pack_predecessor_results.
  rewrite <- (take_drop_middle _ _ _ Hj) at 1. rewrite pack_merged_app.
  destruct (pack_merged_run get_results get_results_dict
              (take j predecessor_tasks)) as [[_ Hrun]|[Hdup _]]; [|done].
  unfold run in Hrun. rewrite Hrun. simpl.
  unfold mbind, M_bind, store_get_results. rewrite Hitems.
  assert (∀ k, k ∈ Dict.keys (mjoin (results_of <$> take j predecessor_tasks))
               ↔ ∃ p, p ∈ take j predecessor_tasks
                      ∧ k ∈ Dict.keys (results_of p)) as Hkeys.
  { intros k. rewrite keys_join, list_elem_of_join. split.
    - intros (ks & Hk & (d & -> & (q & -> & Hq)%list_elem_of_fmap)
                           %list_elem_of_fmap).
      by exists q.
    - intros (q & Hq & Hk). exists (Dict.keys (results_of q)).
      split; [done|]. by apply list_elem_of_fmap_2, list_elem_of_fmap_2. }
  rewrite merge_result_first_clash.
  - by rewrite (take_S_r _ _ _ Hj), fmap_app.
  - split.
    + pose proof (get_results_dict (name pj) (unique_config pj) (publishes pj))
        as Hwf.
      unfold Dict.wf in Hwf. fold (results_of pj) in Hwf.
      rewrite Hitems, dict_keys_app in Hwf.
      by apply NoDup_app in Hwf as [? _].
    + intros k Hk (q & Hq & Hin)%Hkeys. by eapply Hfresh.
  - rewrite dict_keys_app, elem_of_app. left. apply Hkeys. by exists p.
Qed.

(** X2. A predecessor that stands twice in the list and has a non-empty
    store result makes [pack_predecessor_results] raise: its own keys come
    a second time. *)
Theorem pack_predecessor_results_repeated_predecessor
    (predecessor_tasks : list Task) (i j : nat) (p : Task) :
  i ≠ j →
  predecessor_tasks !! i = Some p →
  predecessor_tasks !! j = Some p →
  results_of p ≠ [] →
  ∃ e log,
    run (pack_predecessor_results get_results predecessor_tasks false)
    = (Raised e, log).
Proof.
  intros Hne Hi Hj Hres. unfold pack_predecessor_results.
  destruct (pack_merged_run get_results get_results_dict predecessor_tasks)
    as [[Hno _]|[_ Hrun]]; [|done].
  destruct Hno. destruct (results_of p) as [|[key value] items] eqn:Hp; [done|].
  assert (key ∈ Dict.keys (results_of p)) as Hkey by (rewrite Hp; by left).
  destruct (decide (i < j)).
  - by exists i, j, p, p, key.
  - exists j, i, p, p, key. split_and!; [lia|done..].
Qed.

End ClashReport.

(** ** [pack_results] and [simplify_results]: the keys *)

Section KeysFacts.
Context {K : Type} `{EqDecision K}.

Lemma dict_keys_fmap {V W : Type} (f : V → W) (d : dict K V) :
  Dict.keys (prod_map id f <$> d) = Dict.keys d.
Proof.
  unfold Dict.keys. induction d as [|[k v] d IH]; [done|].
  rewrite !fmap_cons. simpl. by rewrite <- IH.
Qed.

Lemma collect_snoc {T : Type} (key : T → K) item ts t results :
  collect key item (ts ++ [t]) results
  = defaultdict_append (key t) (item t) (collect key item ts results).
Proof. unfold collect. by rewrite fold_left_app. Qed.

Lemma collect_keys {T : Type} (key : T → K) item (ts : list T) :
  Dict.keys (collect key item ts [])
  = reverse (remove_dups (reverse (key <$> ts))).
Proof.
  induction ts as [|t ts IH] using rev_ind; [done|].
  rewrite collect_snoc. unfold defaultdict_append.
  rewrite dict_keys_set, IH, fmap_app. cbn [fmap list_fmap].
  rewrite reverse_snoc. cbn [remove_dups].
  destruct (decide_rel elem_of (key t) (reverse (key <$> ts))) as [Hin|Hin].
  - rewrite decide_True; [done|].
    by rewrite elem_of_reverse, elem_of_remove_dups.
  - rewrite decide_False; [by rewrite reverse_cons|].
    by rewrite elem_of_reverse, elem_of_remove_dups.
Qed.

(** X4. On a dictionary of lists, [simplify_results] keeps the keys and
    their order and rewrites every value on its own: a list with exactly
    one element is replaced by that element, every other list stays. *)
Theorem simplify_results_unwraps (results : dict K (list pyval)) :
  Dict.wf results →
  simplify_results results
  = (λ item, (item.1, match item.2 with
                       | [x] => x
                       | l => PList l
                       end)) <$> results.
Proof.
  intros Hwf. rewrite simplify_results_spec by done.
  apply list_fmap_ext. intros i [k l] _. simpl. by destruct l as [|x [|y l]].
Qed.

End KeysFacts.

Lemma simplify_results_unwraps_witness :
  Dict.wf [("a", [PInt 1]); ("b", []); ("c", [PInt 2; PInt 3])]
  ∧ simplify_results [("a", [PInt 1]); ("b", []); ("c", [PInt 2; PInt 3])]
    = [("a", PInt 1); ("b", PList []); ("c", PList [PInt 2; PInt 3])].
Proof.
  assert (Dict.wf [("a", [PInt 1]); ("b", []); ("c", [PInt 2; PInt 3])])
    as Hwf
    by (unfold Dict.wf, Dict.keys; simpl; apply (bool_decide_unpack _);
        vm_compute; exact I).
  split; [exact Hwf|]. exact (simplify_results_unwraps _ Hwf).
Defined.

Section PackResultsKeys.
Variable get_results :
  option string → option pydict → option (list string) → pydict.

(** X3. In both modes [pack_results] returns a dictionary whose keys are
    the distinct task names, each once, in the order in which the names
    first occur in the task list. *)
Theorem pack_results_keys (all_tasks : list Task) (return_results : bool) :
  ∃ results log,
    run (pack_results get_results all_tasks return_results)
    = (Returned results, log)
    ∧ Dict.keys results = reverse (remove_dups (reverse (name <$> all_tasks)))
    ∧ NoDup (Dict.keys results)
    ∧ ∀ task_name,
        task_name ∈ Dict.keys results
        ↔ ∃ task, task ∈ all_tasks ∧ name task = task_name.
Proof.
  assert (∀ ks : list (option string),
    ks = reverse (remove_dups (reverse (name <$> all_tasks))) →
    NoDup ks
    ∧ ∀ task_name, task_name ∈ ks
        ↔ ∃ task, task ∈ all_tasks ∧ name task = task_name) as Hks.
  { intros ks ->. split.
    - rewrite reverse_Permutation. apply NoDup_remove_dups.
    - intros n.
      rewrite elem_of_reverse, elem_of_remove_dups, elem_of_reverse.
      rewrite list_elem_of_fmap.
      split; intros (t & ? & ?); by exists t. }
  destruct return_results; eexists _, _.
  - unfold run, pack_results, mbind, M_bind.
    rewrite pack_results_load_spec. split; [reflexivity|].
    rewrite simplify_results_spec by (apply collect_wf; constructor).
    rewrite dict_keys_fmap, collect_keys. split; [done|]. by apply Hks.
  - split; [reflexivity|].
    rewrite pack_results_configs_spec.
    rewrite simplify_results_spec by (apply collect_wf; constructor).
    rewrite dict_keys_fmap, collect_keys. split; [done|]. by apply Hks.
Qed.

End PackResultsKeys.

Lemma pack_predecessor_results_first_clash_witness :
  let tasks := [demo_task "data" 0 ["train"; "test"];
                demo_task "tok" 0 ["vocab"; "test"; "train"];
                demo_task "late" 0 ["x"]] in
  run (pack_predecessor_results demo_get_results tasks false)
  = (Raised (TaskResultKeyAlreadyExists
       "tok saves a key 'test' that already exists in another tasks's result"),
     call_of <$> take 2 tasks).
Proof.
  apply (pack_predecessor_results_first_clash demo_get_results
           demo_get_results_dict _ 1
           (demo_task "tok" 0 ["vocab"; "test"; "train"])
           [("vocab", PInt 5)] [("train", PInt 5)] "test" (PInt 4)).
  - reflexivity.
  - intros (i & j & pi & pj & key & Hlt & Hi & Hj & _).
    destruct i as [|i], j as [|j]; simplify_eq/=; lia.
  - reflexivity.
  - intros k p Hk Hp. simpl in Hp. apply list_elem_of_singleton in Hp as ->.
    apply list_elem_of_singleton in Hk as ->.
    apply (bool_decide_unpack _). vm_compute. exact I.
  - exists (demo_task "data" 0 ["train"; "test"]). split.
    + simpl. by left.
    + apply (bool_decide_unpack _). vm_compute. exact I.
Defined.

Lemma pack_predecessor_results_repeated_predecessor_witness :
  let tasks := [demo_task "data" 0 ["train"]; demo_task "tok" 0 ["vocab"];
                demo_task "data" 0 ["train"]] in
  ∃ e log,
    run (pack_predecessor_results demo_get_results tasks false) = (Raised e, log).
Proof.
  apply (pack_predecessor_results_repeated_predecessor demo_get_results
           demo_get_results_dict _ 0 2 (demo_task "data" 0 ["train"]));
    [lia | reflexivity | reflexivity | discriminate].
Defined.

(** ** [required_by] and [requires]: what holds for every argument *)

(** X5. [required_by] on its own records only one side of an edge: applied
    to a heap in which every edge is recorded at both ends, it leaves a
    heap in which that is no longer so. *)
Theorem required_by_breaks_symmetry (h : heap) (self successor : oid) :
  edge_symmetric h → ¬ edge_symmetric (required_by h self successor).
Proof.
  intros Hsym Hsym'. specialize (Hsym successor self).
  specialize (Hsym' successor self).
  rewrite predecessors_required_by, successors_required_by in Hsym'.
  rewrite decide_True, occurrences_app in Hsym' by done.
  unfold occurrences in Hsym' at 3. simpl in Hsym'.
  destruct (Nat.eq_dec successor successor); [lia|done].
Qed.

Lemma required_by_breaks_symmetry_witness :
  edge_symmetric fresh_heap ∧ ¬ edge_symmetric (required_by fresh_heap 0 1).
Proof.
  split; [exact fresh_heap_symmetric|].
  exact (required_by_breaks_symmetry fresh_heap 0 1 fresh_heap_symmetric).
Defined.

Lemma deref_required_by h p self r :
  ∃ extra, deref (required_by h p self) r = deref h r ++ extra.
Proof.
  destruct r as [l|o|o]; simpl.
  - exists []. by rewrite app_nil_r.
  - exists []. by rewrite predecessors_required_by, app_nil_r.
  - eexists. apply successors_required_by.
Qed.

Lemma occurrences_cons x y l :
  occurrences x (y :: l) = (if decide (x = y) then 1 else 0) + occurrences x l.
Proof.
  unfold occurrences. simpl.
  destruct (Nat.eq_dec y x), (decide (x = y)); simpl; done || congruence.
Qed.

Lemma requires_loop_frame fuel h self r i h' :
  requires_loop fuel h self r i = Some h' →
  (∀ o, _predecessors (h' o) = _predecessors (h o))
  ∧ ∀ o, ∃ k, occurrences o (drop i (deref h r)) ≤ k
              ∧ _successors (h' o) = _successors (h o) ++ repeat self k.
Proof.
  revert h i. induction fuel as [|fuel IH]; intros h i Hrun; [done|].
  simpl in Hrun. destruct (deref h r !! i) as [p|] eqn:Hp.
  - apply IH in Hrun as [Hpred Hsucc]. split.
    + intros o. by rewrite Hpred, predecessors_required_by.
    + intros o. destruct (Hsucc o) as (k & Hk & ->).
      destruct (deref_required_by h p self r) as [extra Hextra].
      rewrite Hextra, drop_app_le in Hk
        by (apply lookup_lt_Some in Hp; lia).
      rewrite occurrences_app in Hk.
      rewrite (drop_S _ _ _ Hp), occurrences_cons, successors_required_by.
      rewrite <- app_assoc. case_decide; subst.
      * exists (S k). split; [lia|done].
      * exists k. split; [lia|done].
  - simplify_eq. split; [done|]. intros o. exists 0.
    apply lookup_ge_None in Hp. rewrite drop_ge by done.
    split; [done|]. simpl. by rewrite app_nil_r.
Qed.

Lemma deref_extend_predecessors h self arg :
  ∃ extra,
    deref (extend_predecessors h self (given h arg))
      match arg with ArgSpec p => LFresh [p] | ArgList r => r end
    = given h arg ++ extra.
Proof.
  destruct arg as [p|[l|o|o]]; simpl; unfold extend_predecessors.
  - by exists [].
  - exists []. by rewrite app_nil_r.
  - case_decide; subst; simpl; [by eexists|].
    exists []. by rewrite app_nil_r.
  - exists []. rewrite app_nil_r. by case_decide.
Qed.

(** X6. Whatever the argument, aliased or not: when [s.requires] returns,
    the predecessor list of [s] has grown by exactly the specs given at
    the time of the call, no other predecessor list has changed, and every
    successor list has only grown, by copies of [s] and by at least as
    many of them as its owner was given. *)
Theorem requires_only_appends (fuel : nat) (h : heap) (self : oid)
    (arg : requires_arg) (h' : heap) :
  requires fuel h self arg = Some h' →
  _predecessors (h' self) = _predecessors (h self) ++ given h arg
  ∧ (∀ o, o ≠ self → _predecessors (h' o) = _predecessors (h o))
  ∧ ∀ o, ∃ k, occurrences o (given h arg) ≤ k
              ∧ _successors (h' o) = _successors (h o) ++ repeat self k.
Proof.
  assert (deref h match arg with ArgSpec p => LFresh [p] | ArgList r => r end
          = given h arg) as Hgiven by (by destruct arg).
  unfold requires. rewrite Hgiven.
  intros [Hpred Hsucc]%requires_loop_frame. split_and!.
  - rewrite Hpred. unfold extend_predecessors. by rewrite decide_True.
  - intros o Hne. rewrite Hpred. unfold extend_predecessors.
    by rewrite decide_False.
  - intros o. destruct (Hsucc o) as (k & Hk & Hk').
    destruct (deref_extend_predecessors h self arg) as [extra Hextra].
    rewrite Hextra, drop_0, occurrences_app in Hk.
    exists k. split; [lia|].
    rewrite Hk'. unfold extend_predecessors. by case_decide.
Qed.

Lemma requires_only_appends_witness :
  let h := requires_effect fresh_heap 0 [1] in
  let h' := required_by (required_by (extend_predecessors h 0 [1]) 1 0) 1 0 in
  requires 3 h 0 (ArgList (LPreds 0)) = Some h'
  ∧ _predecessors (h' 0) = _predecessors (h 0) ++ given h (ArgList (LPreds 0))
  ∧ (∀ o, o ≠ 0 → _predecessors (h' o) = _predecessors (h o))
  ∧ ∀ o, ∃ k, occurrences o (given h (ArgList (LPreds 0))) ≤ k
              ∧ _successors (h' o) = _successors (h o) ++ repeat 0 k.
Proof.
  split; [reflexivity|].
  apply (requires_only_appends 3 (requires_effect fresh_heap 0 [1]) 0
           (ArgList (LPreds 0))).
  reflexivity.
Defined.

(** ** [requires]: lists of the caller's own *)

Lemma DependencyMixin_eq (x y : DependencyMixin) :
  _predecessors x = _predecessors y → _successors x = _successors y → x = y.
Proof. destruct x, y. simpl. by intros -> ->. Qed.

Lemma plain_given_unaliased h self arg l :
  plain_given arg = Some l → unaliased h self arg ∧ given h arg = l.
Proof. destruct arg as [p|[l'|o|o]]; simpl; intros [= <-]; done. Qed.

Lemma requires_effect_at h self l o :
  requires_effect h self l o
  = {| _predecessors :=
         _predecessors (h o) ++ (if decide (o = self) then l else []);
       _successors := _successors (h o) ++ repeat self (occurrences o l) |}.
Proof.
  destruct (requires_effect_appends h self l) as (Hself & Hother & Hsucc & _).
  apply DependencyMixin_eq; simpl; [|apply Hsucc].
  case_decide; subst; [done|]. rewrite app_nil_r. by apply Hother.
Qed.

(** X7. Handing [requires] the list [l1 ++ l2] does what handing it [l1]
    and then, in a second call, [l2] does: the two ways leave every object
    with the same lists. *)
Theorem requires_list_app (h : heap) (self : oid) (l1 l2 : list oid)
    (fuel : nat) :
  length (l1 ++ l2) < fuel →
  ∃ h12 h1 h2,
    requires fuel h self (ArgList (LFresh (l1 ++ l2))) = Some h12
    ∧ requires fuel h self (ArgList (LFresh l1)) = Some h1
    ∧ requires fuel h1 self (ArgList (LFresh l2)) = Some h2
    ∧ ∀ o, h12 o = h2 o.
Proof.
  rewrite length_app. intros Hfuel.
  exists (requires_effect h self (l1 ++ l2)), (requires_effect h self l1),
    (requires_effect (requires_effect h self l1) self l2).
  rewrite !requires_unaliased by (simpl; rewrite ?length_app; done || lia).
  split_and!; [done..|]. intros o. simpl. rewrite !requires_effect_at. simpl.
  apply DependencyMixin_eq; simpl.
  - case_decide; [by rewrite app_assoc | by rewrite !app_nil_r].
  - by rewrite occurrences_app, repeat_app, <- app_assoc.
Qed.

Lemma requires_list_app_witness :
  length ([1; 2] ++ [1]) < 4
  ∧ ∃ h12 h1 h2,
      requires 4 fresh_heap 0 (ArgList (LFresh ([1; 2] ++ [1]))) = Some h12
      ∧ requires 4 fresh_heap 0 (ArgList (LFresh [1; 2])) = Some h1
      ∧ requires 4 h1 0 (ArgList (LFresh [1])) = Some h2
      ∧ ∀ o, h12 o = h2 o.
Proof.
  split; [simpl; lia|].
  apply (requires_list_app fresh_heap 0 [1; 2] [1] 4). simpl. lia.
Defined.

(** An empty list of predecessors changes nothing: after
    [s.requires([])] every object has the lists it had. *)
Lemma requires_empty_list (h : heap) (self : oid) (fuel : nat) :
  ∃ h', requires (S fuel) h self (ArgList (LFresh [])) = Some h'
        ∧ ∀ o, h' o = h o.
Proof.
  eexists. split; [reflexivity|]. intros o. unfold extend_predecessors.
  case_decide; [|done]. apply DependencyMixin_eq; simpl; [|done].
  by rewrite app_nil_r.
Qed.

Lemma requires_calls_plain calls h :
  Forall (λ call, is_Some (plain_given call.2)) calls →
  ∃ h' fuel0,
    (∀ fuel, fuel0 ≤ fuel → requires_calls fuel h calls = Some h')
    ∧ ∀ o, _predecessors (h' o) = _predecessors (h o) ++ handed_to o calls
           ∧ _successors (h' o) = _successors (h o) ++ receivers_of o calls.
Proof.
  intros Hplain. revert h.
  induction Hplain as [|[self arg] calls [l Hl] _ IH]; intros h.
  - exists h, 0. split; [done|]. intros o. unfold handed_to, receivers_of.
    simpl. by rewrite !app_nil_r.
  - simpl in Hl. destruct (plain_given_unaliased h self arg l Hl) as [Hun Hg].
    destruct (IH (requires_effect h self l)) as (h' & fuel0 & Hrun & Hlists).
    exists h', (fuel0 `max` S (length l)). split.
    + intros fuel Hfuel. simpl.
      rewrite requires_unaliased by (done || rewrite Hg; lia).
      rewrite Hg. apply Hrun. lia.
    + intros o. destruct (Hlists o) as [-> ->].
      rewrite requires_effect_at. unfold handed_to, receivers_of.
      rewrite !fmap_cons. simpl. rewrite Hl. simpl.
      rewrite <- !app_assoc. split; [|done].
      destruct (decide (o = self)), (decide (self = o)); done || congruence.
Qed.

(** X8. After a sequence of [requires] calls on fresh objects, each with a
    single spec or a list of the caller's own, the predecessor list of an
    object is everything that was handed to its own [requires] calls, in
    call order, and its successor list holds the receivers of the calls
    that were handed the object, in call order and once per occurrence. *)
Theorem requires_calls_lists (calls : list (oid * requires_arg)) :
  Forall (λ call, is_Some (plain_given call.2)) calls →
  ∃ h' fuel0,
    (∀ fuel, fuel0 ≤ fuel → requires_calls fuel fresh_heap calls = Some h')
    ∧ ∀ o, _predecessors (h' o) = handed_to o calls
           ∧ _successors (h' o) = receivers_of o calls.
Proof. intros Hplain. exact (requires_calls_plain calls fresh_heap Hplain). Qed.

Lemma requires_calls_lists_witness :
  let calls := [(1, ArgSpec 0); (2, ArgList (LFresh [1; 0])); (3, ArgSpec 2);
                (2, ArgSpec 0)] in
  ∃ h' fuel0,
    (∀ fuel, fuel0 ≤ fuel → requires_calls fuel fresh_heap calls = Some h')
    ∧ ∀ o, _predecessors (h' o) = handed_to o calls
           ∧ _successors (h' o) = receivers_of o calls.
Proof.
  apply (requires_calls_lists
           [(1, ArgSpec 0); (2, ArgList (LFresh [1; 0])); (3, ArgSpec 2);
            (2, ArgSpec 0)]).
  repeat constructor; simpl; by eexists.
Defined.

Example handed_to_demo :
  handed_to 2 [(1, ArgSpec 0); (2, ArgList (LFresh [1; 0])); (3, ArgSpec 2);
               (2, ArgSpec 0)] = [1; 0; 0]
  ∧ receivers_of 0 [(1, ArgSpec 0); (2, ArgList (LFresh [1; 0]));
                    (3, ArgSpec 2); (2, ArgSpec 0)] = [1; 2; 2].
Proof. split; reflexivity. Qed.

(** ** [requires]: a call that does not return *)

Lemma requires_loop_own_successors fuel h self i j :
  _successors (h self) !! j = Some self →
  i ≤ j →
  requires_loop fuel h self (LSuccs self) i = None.
Proof.
  revert h i j. induction fuel as [|fuel IH]; intros h i j Hj Hij; [done|].
  simpl. destruct (_successors (h self) !! i) as [p|] eqn:Hp.
  - destruct (decide (i = j)) as [->|Hne].
    + simplify_eq. apply (IH _ _ (length (_successors (h self)))).
      * rewrite successors_required_by, decide_True by done.
        by rewrite list_lookup_middle.
      * apply lookup_lt_Some in Hj. lia.
    + apply (IH _ _ j); [|lia].
      rewrite successors_required_by. by apply lookup_app_l_Some.
  - apply lookup_ge_None in Hp. apply lookup_lt_Some in Hj. lia.
Qed.

(** X9. When a spec stands in its own successor list (it has required
    itself), handing its [requires] that very successor list never
    returns: the loop appends to the list it walks, whatever the fuel. *)
Theorem requires_own_successors_never_returns (h : heap) (self : oid) :
  self ∈ _successors (h self) →
  ∀ fuel, requires fuel h self (ArgList (LSuccs self)) = None.
Proof.
  intros [j Hj]%list_elem_of_lookup fuel. unfold requires.
  apply (requires_loop_own_successors _ _ _ _ j); [|lia].
  unfold extend_predecessors. by rewrite decide_True.
Qed.

Lemma requires_own_successors_never_returns_witness :
  let h := requires_effect fresh_heap 0 [0] in
  requires 2 fresh_heap 0 (ArgSpec 0) = Some h
  ∧ 0 ∈ _successors (h 0)
  ∧ ∀ fuel, requires fuel h 0 (ArgList (LSuccs 0)) = None.
Proof.
  assert (0 ∈ _successors (requires_effect fresh_heap 0 [0] 0)) as Hin
    by (simpl; by left).
  split; [reflexivity|]. split; [exact Hin|].
  exact (requires_own_successors_never_returns _ 0 Hin).
Defined.

(** ** Model selection in the translation example *)

Section ModelSelectionFacts.
Context {V : Type} (le : V → V → bool) (inf : V).

Local Abbreviation valid_loss_of :=
  (λ sweep : Sweep V, Dict.get "valid_loss" (sweep_value sweep)).

Lemma select_best_loop_earlier before rest config best v :
  le v best = true →
  (∀ s', s' ∈ before → ∃ v', valid_loss_of s' = Some v' ∧ le v v' = true) →
  ∃ config' best',
    select_best_loop V le (before ++ rest) config best
    = select_best_loop V le rest config' best'
    ∧ le v best' = true.
Proof.
  revert config best.
  induction before as [|s0 before IH]; intros config best Hbest Hbefore.
  - by exists config, best.
  - destruct (Hbefore s0) as (v0 & Hv0 & Hle0); [by left|].
    simpl. rewrite Hv0.
    destruct (le v0 best); apply IH; try done;
      intros s' Hs'; apply Hbefore; by right.
Qed.

Lemma select_best_loop_later after config best :
  (∀ s', s' ∈ after → ∃ v', valid_loss_of s' = Some v' ∧ le v' best = false) →
  select_best_loop V le after config best = Value config.
Proof.
  induction after as [|s0 after IH]; intros Hafter; simpl; [done|].
  destruct (Hafter s0) as (v0 & -> & ->); [by left|].
  apply IH. intros s' Hs'. apply Hafter. by right.
Qed.

(** X10. [_select_best_model_from_sweeps] returns the config of the last
    sweep that is at least as good as every sweep before it: when the
    loss of a sweep compares [<=] to infinity and to the loss of every
    earlier sweep, and no later sweep has a loss [<=] to its own, its
    config is the answer.  Among sweeps with equal losses the later one
    wins. *)
Theorem select_best_model_last_minimum (before after : list (Sweep V))
    (sweep : Sweep V) (v : V) :
  valid_loss_of sweep = Some v →
  le v inf = true →
  (∀ s', s' ∈ before → ∃ v', valid_loss_of s' = Some v' ∧ le v v' = true) →
  (∀ s', s' ∈ after → ∃ v', valid_loss_of s' = Some v' ∧ le v' v = false) →
  _select_best_model_from_sweeps V le inf (before ++ sweep :: after)
  = Value (Some (sweep_config sweep)).
Proof.
  intros Hv Hinf Hbefore Hafter. unfold _select_best_model_from_sweeps.
  destruct (select_best_loop_earlier before (sweep :: after) None inf v
              Hinf Hbefore) as (config' & best' & -> & Hbest').
  simpl. rewrite Hv, Hbest'. by apply select_best_loop_later.
Qed.

(** X11. A sweep whose stored value has no ["valid_loss"] entry makes
    [_select_best_model_from_sweeps] raise [KeyError], whatever the other
    sweeps hold, provided the sweeps before it have the entry. *)
Theorem select_best_model_missing_loss (before after : list (Sweep V))
    (sweep : Sweep V) :
  (∀ s', s' ∈ before → is_Some (valid_loss_of s')) →
  valid_loss_of sweep = None →
  _select_best_model_from_sweeps V le inf (before ++ sweep :: after) = KeyError.
Proof.
  intros Hbefore Hnone. unfold _select_best_model_from_sweeps.
  generalize (@None pydict) inf.
  induction before as [|s0 before IH]; intros config best; simpl.
  - by rewrite Hnone.
  - destruct (Hbefore s0) as [v0 ->]; [by left|].
    destruct (le v0 best); apply IH; intros s' Hs'; apply Hbefore; by right.
Qed.

(** X12. When no sweep has a loss that compares [<=] to infinity (there is
    no sweep at all, or every loss is not a number),
    [_select_best_model_from_sweeps] returns [None]. *)
Theorem select_best_model_none (sweeps : list (Sweep V)) :
  (∀ s', s' ∈ sweeps → ∃ v', valid_loss_of s' = Some v' ∧ le v' inf = false) →
  _select_best_model_from_sweeps V le inf sweeps = Value None.
Proof. apply select_best_loop_later. Qed.

End ModelSelectionFacts.

Lemma select_best_model_last_minimum_witness :
  _select_best_model_from_sweeps (option Z) demo_le None
    ([demo_sweep 7 1; demo_sweep 5 2] ++ demo_sweep 5 3 :: [demo_sweep 9 4])
  = Value (Some [("lr", PInt 3)]).
Proof.
  apply (select_best_model_last_minimum demo_le None
           [demo_sweep 7 1; demo_sweep 5 2] [demo_sweep 9 4] (demo_sweep 5 3)
           (Some 5%Z)).
  - reflexivity.
  - reflexivity.
  - intros s' [->|[->|[]%elem_of_nil]%elem_of_cons]%elem_of_cons;
      eexists; split; reflexivity.
  - intros s' ->%list_elem_of_singleton. eexists; split; reflexivity.
Defined.

Lemma select_best_model_missing_loss_witness :
  _select_best_model_from_sweeps (option Z) demo_le None
    ([demo_sweep 7 1] ++
     {| sweep_value := [("epoch", Some 3%Z)]; sweep_config := [] |}
     :: [demo_sweep 9 4])
  = KeyError.
Proof.
  apply (select_best_model_missing_loss demo_le None [demo_sweep 7 1]).
  - intros s' ->%list_elem_of_singleton. by eexists.
  - reflexivity.
Defined.

Lemma select_best_model_none_witness :
  _select_best_model_from_sweeps (option Z) (λ _ _, false) None
    [demo_sweep 7 1; demo_sweep 5 2]
  = Value None.
Proof.
  apply (select_best_model_none (λ _ _, false) None).
  intros s' [-> | ->%list_elem_of_singleton]%elem_of_cons;
    eexists; split; reflexivity.
Defined.

(** ** The records of a reduce task and the records of the run *)

Section ReduceRecords.
Variable get_results :
  option string → option pydict → option (list string) → pydict.

Local Abbreviation results_of := (results_of get_results).
Local Abbreviation record_of :=
  (λ task : Task, result_record (results_of task) (unique_config task)).

Lemma filter_all {A : Type} (P : A → Prop) `{∀ x, Decision (P x)} (l : list A) :
  (∀ x, x ∈ l → P x) → filter P l = l.
Proof.
  induction l as [|x l IH]; intros Hall; [done|].
  rewrite filter_cons, decide_True by (apply Hall; by left).
  rewrite IH; [done|]. intros y Hy. apply Hall. by right.
Qed.

Lemma dict_single {K V : Type} `{EqDecision K} (d : dict K V) k v :
  Dict.keys d = [k] → Dict.get k d = Some v → d = [(k, v)].
Proof.
  destruct d as [|[k' v'] [|? d]]; try done. simpl. intros [= ->].
  rewrite decide_True by done. by intros [= ->].
Qed.

Lemma first_occurrences_single {A : Type} `{EqDecision A} (l : list A) x :
  l ≠ [] → (∀ y, y ∈ l → y = x) → reverse (remove_dups (reverse l)) = [x].
Proof.
  intros Hne Hall.
  assert (NoDup (reverse (remove_dups (reverse l)))) as Hnd
    by (rewrite reverse_Permutation; apply NoDup_remove_dups).
  assert (∀ y, y ∈ reverse (remove_dups (reverse l)) ↔ y ∈ l) as Hin.
  { intros y. by rewrite elem_of_reverse, elem_of_remove_dups, elem_of_reverse. }
  destruct (reverse (remove_dups (reverse l))) as [|a [|b ks]].
  - destruct l as [|y l]; [done|]. exfalso.
    eapply elem_of_nil, Hin. by left.
  - f_equal. apply Hall, Hin. by left.
  - assert (a = x) as -> by (apply Hall, Hin; by left).
    assert (b = x) as -> by (apply Hall, Hin; right; by left).
    apply NoDup_cons in Hnd as [Hx _]. destruct Hx. by left.
Qed.

(** X13. For two or more tasks that bear one name, the list
    [pack_results] returns under that name is the list a reduce task gets
    from [pack_predecessor_results] under ["reduced_results"] for the same
    tasks: the same records in the same order, after the same store calls;
    and the name is the only key [pack_results] returns. *)
Theorem pack_results_agrees_with_reduce (tasks : list Task)
    (task_name : option string) :
  (∀ task, task ∈ tasks → name task = task_name) →
  1 < length tasks →
  ∃ records log,
    run (pack_predecessor_results get_results tasks true)
    = (Returned [("reduced_results", PList records)], log)
    ∧ run (pack_results get_results tasks true)
      = (Returned [(task_name, PList records)], log).
Proof.
  intros Hname Hlen. exists (record_of <$> tasks), (call_of <$> tasks). split.
  - unfold run, pack_predecessor_results, mbind, M_bind.
    by rewrite pack_reduced_spec.
  - unfold run, pack_results, mbind, M_bind.
    rewrite pack_results_load_spec. simpl. unfold mret, M_ret. do 2 f_equal.
    apply dict_single.
    + rewrite simplify_results_spec by (apply collect_wf; constructor).
      rewrite dict_keys_fmap, collect_keys.
      apply first_occurrences_single.
      * destruct tasks; [simpl in Hlen; lia | done].
      * intros y (task & -> & Htask)%list_elem_of_fmap. by apply Hname.
    + rewrite simplify_collect_get, filter_all by done.
      destruct tasks as [|t [|t' tasks]]; simpl in *; [lia..|done].
Qed.

End ReduceRecords.

Lemma pack_results_agrees_with_reduce_witness :
  let tasks := [demo_task "train" 1 ["m"]; demo_task "train" 2 ["m"]] in
  ∃ records log,
    run (pack_predecessor_results demo_get_results tasks true)
    = (Returned [("reduced_results", PList records)], log)
    ∧ run (pack_results demo_get_results tasks true)
      = (Returned [(Some "train", PList records)], log).
Proof.
  apply (pack_results_agrees_with_reduce demo_get_results
           [demo_task "train" 1 ["m"]; demo_task "train" 2 ["m"]]
           (Some "train")).
  - intros task [-> | ->%list_elem_of_singleton]%elem_of_cons; reflexivity.
  - simpl. lia.
Defined.

(** ** The property setters *)

Lemma set_predecessors_at h self l o :
  _predecessors (set_predecessors h self l o)
  = (if decide (o = self) then l else _predecessors (h o))
  ∧ _successors (set_predecessors h self l o) = _successors (h o).
Proof. unfold set_predecessors. by destruct (decide (o = self)). Qed.

Lemma set_successors_at h self l o :
  _predecessors (set_successors h self l o) = _predecessors (h o)
  ∧ _successors (set_successors h self l o)
    = (if decide (o = self) then l else _successors (h o)).
Proof. unfold set_successors. by destruct (decide (o = self)). Qed.

(** X14. The setters assign one list and touch nothing else, so they keep
    the edges recorded at both ends only when the new list holds the same
    specs as often as the old one did: on a heap with every edge recorded
    at both ends, that is so after [s.predecessors = l] exactly when [l]
    and the old predecessor list of [s] have the same occurrences, and
    likewise after [s.successors = l]. *)
Theorem setters_keep_symmetry_iff (h : heap) (self : oid) (l : list oid) :
  edge_symmetric h →
  (edge_symmetric (set_predecessors h self l)
   ↔ ∀ b, occurrences b l = occurrences b (_predecessors (h self)))
  ∧ (edge_symmetric (set_successors h self l)
     ↔ ∀ a, occurrences a l = occurrences a (_successors (h self))).
Proof.
  intros Hsym. unfold edge_symmetric. split; split.
  - intros Hsym' b. specialize (Hsym' self b).
    destruct (set_predecessors_at h self l self) as [Hp _].
    destruct (set_predecessors_at h self l b) as [_ Hs].
    rewrite Hp, Hs, decide_True in Hsym' by done. by rewrite Hsym', Hsym.
  - intros Hocc a b.
    destruct (set_predecessors_at h self l a) as [-> _].
    destruct (set_predecessors_at h self l b) as [_ ->].
    destruct (decide (a = self)) as [->|Hne]; [|apply Hsym].
    by rewrite Hocc, Hsym.
  - intros Hsym' a. specialize (Hsym' a self).
    destruct (set_successors_at h self l self) as [_ Hs].
    destruct (set_successors_at h self l a) as [Hp _].
    rewrite Hp, Hs, decide_True in Hsym' by done. by rewrite <- Hsym', Hsym.
  - intros Hocc a b.
    destruct (set_successors_at h self l a) as [-> _].
    destruct (set_successors_at h self l b) as [_ ->].
    destruct (decide (b = self)) as [->|Hne]; [|apply Hsym].
    by rewrite Hocc, <- Hsym.
Qed.

Lemma setters_keep_symmetry_iff_witness :
  let h := requires_effect fresh_heap 0 [1; 2] in
  edge_symmetric h
  ∧ (edge_symmetric (set_predecessors h 0 [2; 1])
     ↔ ∀ b, occurrences b [2; 1] = occurrences b (_predecessors (h 0)))
  ∧ (edge_symmetric (set_successors h 0 [2; 1])
     ↔ ∀ a, occurrences a [2; 1] = occurrences a (_successors (h 0))).
Proof.
  assert (edge_symmetric (requires_effect fresh_heap 0 [1; 2])) as Hsym
    by (apply requires_effect_symmetric, fresh_heap_symmetric).
  split; [exact Hsym|].
  exact (setters_keep_symmetry_iff _ 0 [2; 1] Hsym).
Defined.
